(** * xeus-cling: the interpreter's execution core ([src/xinterpreter.cpp])

    A shallow embedding of [xcpp::interpreter]: the request handlers
    [execute_request_impl], [complete_request_impl] and
    [inspect_request_impl], the error reply, and the redirection of the two
    standard streams.  The cling engine, the preamble handlers, the block
    splitter and [trim] are collaborators of the file: they are the fields
    of the records [engine], [xpreamble] and [parser], and every property
    holds whatever they are.  [std::regex] is modelled by a backtracking
    matcher with the ECMAScript priorities. *)

From Stdlib Require Import ZArith Ascii String List Bool Lia DecimalString.
From stdpp Require Import base option list strings gmap.
Import ListNotations.

Local Open Scope list_scope.

(** ** Regular expressions ([std::regex], ECMAScript grammar) *)

Module Regex.

(** The patterns of the file, as the syntax trees [std::regex] builds from
    them.  A non-capturing group [(?:r)] is [r] itself. *)
Inductive regex : Type :=
| Empty
| Char (a : ascii)
| AnyChar                         (* .   : any character but a line end *)
| WordChar                        (* \w  : letter, digit or underscore *)
| NoneOf (cs : list ascii)        (* [^cs] *)
| Seq (r1 r2 : regex)
| Alt (r1 r2 : regex)
| Star (r : regex)                (* r*  greedy *)
| Plus (r : regex)                (* r+  greedy *)
| Opt (r : regex)                 (* r?  greedy *)
| Group (n : nat) (r : regex)     (* (r), the n-th capturing group *)
| EndOfInput.                     (* $ *)

(** Sub-matches: group number to the half-open range it matched. *)
Definition captures := list (nat * (nat * nat)).

Definition capture_of (n : nat) (c : captures) : option (nat * nat) :=
  snd <$> find (fun e => Nat.eqb (fst e) n) c.

Definition set_capture (n : nat) (range : nat * nat) (c : captures) : captures :=
  (n, range) :: filter (fun e => fst e ≠ n) c.

Definition clear_captures (ns : list nat) (c : captures) : captures :=
  filter (fun e => fst e ∉ ns) c.

Fixpoint groups (r : regex) : list nat :=
  match r with
  | Seq r1 r2 | Alt r1 r2 => groups r1 ++ groups r2
  | Star r | Plus r | Opt r => groups r
  | Group n r => n :: groups r
  | _ => []
  end.

Definition is_word_char (a : ascii) : bool :=
  let n := nat_of_ascii a in
  ((48 <=? n) && (n <=? 57)) || ((65 <=? n) && (n <=? 90))
  || ((97 <=? n) && (n <=? 122)) || (n =? 95).

Definition is_line_end (a : ascii) : bool :=
  let n := nat_of_ascii a in (n =? 10) || (n =? 13).

Definition mem_ascii (a : ascii) (cs : list ascii) : bool :=
  existsb (Ascii.eqb a) cs.

(** A match ends at a position with the captures made on the way. *)
Definition mresult : Type := nat * captures.
Definition cont : Type := nat -> list ascii -> captures -> option mresult.

Definition one_char (p : ascii -> bool) (i : nat) (s : list ascii)
    (c : captures) (k : cont) : option mresult :=
  match s with
  | x :: s' => if p x then k (S i) s' c else None
  | [] => None
  end.

(** The greedy loop of a quantifier without upper bound: one more
    iteration first, the rest of the pattern second.  An iteration that
    consumes nothing is refused, so [fuel], the number of characters left
    when the loop is entered, bounds the iterations. *)
Definition repeat_loop
    (body : nat -> list ascii -> captures -> cont -> option mresult)
    (k : cont) : nat -> nat -> list ascii -> captures -> option mresult :=
  fix loop (fuel : nat) (i : nat) (s : list ascii) (c : captures) :=
    match fuel with
    | O => k i s c
    | S fuel' =>
        match body i s c
                (fun i' s' c' => if Nat.eqb i' i then None else loop fuel' i' s' c') with
        | Some res => Some res
        | None => k i s c
        end
    end.

(** [m r i s c k]: match [r] against [s], the input from position [i] on,
    then continue with [k]; alternatives are tried in the order of the
    pattern and the first success is the result. *)
Fixpoint m (r : regex) (i : nat) (s : list ascii) (c : captures) (k : cont)
    {struct r} : option mresult :=
  match r with
  | Empty => k i s c
  | Char a => one_char (Ascii.eqb a) i s c k
  | AnyChar => one_char (fun x => negb (is_line_end x)) i s c k
  | WordChar => one_char is_word_char i s c k
  | NoneOf cs => one_char (fun x => negb (mem_ascii x cs)) i s c k
  | Seq r1 r2 => m r1 i s c (fun i' s' c' => m r2 i' s' c' k)
  | Alt r1 r2 =>
      match m r1 i s c k with
      | Some res => Some res
      | None => m r2 i s c k
      end
  | Star r1 =>
      repeat_loop (fun i' s' c' k' => m r1 i' s' (clear_captures (groups r1) c') k')
                  k (length s) i s c
  | Plus r1 =>
      m r1 i s (clear_captures (groups r1) c)
        (fun i1 s1 c1 =>
           repeat_loop (fun i' s' c' k' => m r1 i' s' (clear_captures (groups r1) c') k')
                       k (length s1) i1 s1 c1)
  | Opt r1 =>
      match m r1 i s (clear_captures (groups r1) c)
              (fun i' s' c' => if Nat.eqb i' i then None else k i' s' c') with
      | Some res => Some res
      | None => k i s c
      end
  | Group n r1 => m r1 i s c (fun i' s' c' => k i' s' (set_capture n (i, i') c'))
  | EndOfInput => match s with [] => k i s c | _ :: _ => None end
  end.

(** A match found by a search: where it starts, where it ends, its groups. *)
Record smatch : Type := SMatch {
  m_begin : nat;
  m_end : nat;
  m_caps : captures
}.

(** A match that starts at position [i] ([match_continuous]); with
    [not_null] an empty match is no match ([match_not_null]). *)
Definition match_at (not_null : bool) (r : regex) (i : nat) (s : list ascii)
    : option smatch :=
  match m r i s []
          (fun i' _ c' => if not_null && Nat.eqb i' i then None else Some (i', c')) with
  | Some (e, c) => Some (SMatch i e c)
  | None => None
  end.

(** [std::regex_search] on the input from position [i] on: the leftmost
    start at which the pattern matches. *)
Fixpoint search_from (r : regex) (i : nat) (s : list ascii) : option smatch :=
  match match_at false r i s with
  | Some mt => Some mt
  | None =>
      match s with
      | [] => None
      | _ :: s' => search_from r (S i) s'
      end
  end.

Definition regex_search (r : regex) (input : list ascii) : option smatch :=
  search_from r 0 input.

Definition sub (input : list ascii) (b e : nat) : list ascii :=
  take (e - b) (drop b input).

(** [magic[0]], the text of the whole match. *)
Definition matched_text (input : list ascii) (mt : smatch) : list ascii :=
  sub input (m_begin mt) (m_end mt).

(** Replacement formats: literal text and [$n]. *)
Inductive fmt_piece : Type :=
| Lit (t : list ascii)
| Sub (n : nat).

Definition format_piece (input : list ascii) (mt : smatch) (p : fmt_piece)
    : list ascii :=
  match p with
  | Lit t => t
  | Sub 0 => matched_text input mt
  | Sub n =>
      match capture_of n (m_caps mt) with
      | Some (b, e) => sub input b e
      | None => []
      end
  end.

Definition format (input : list ascii) (mt : smatch) (fmt : list fmt_piece)
    : list ascii :=
  concat (map (format_piece input mt) fmt).

(** The next match of a [std::regex_iterator] whose previous match ended at
    [i] ([s] is the input from [i] on): after an empty match a non-empty
    match at the same place is tried first, then the search goes on one
    character further. *)
Definition next_match (r : regex) (prev_empty : bool) (i : nat) (s : list ascii)
    : option smatch :=
  if prev_empty then
    match s with
    | [] => None
    | _ :: s' =>
        match match_at true r i s with
        | Some mt => Some mt
        | None => search_from r (S i) s'
        end
    end
  else search_from r i s.

(** [std::regex_replace]: every match is replaced by the format, the text
    between the matches is copied.  [i] is the end of the previous match.
    Each round moves the end of the match forward or stops, so twice the
    length of the input plus two is fuel enough ([replace_loop_total]);
    [None] is fuel run out. *)
Fixpoint replace_loop (fuel : nat) (r : regex) (fmt : list fmt_piece)
    (input : list ascii) (prev_empty : bool) (i : nat) : option (list ascii) :=
  match fuel with
  | O => None
  | S fuel' =>
      match next_match r prev_empty i (drop i input) with
      | None => Some (drop i input)
      | Some mt =>
          rest ← replace_loop fuel' r fmt input
                   (Nat.eqb (m_begin mt) (m_end mt)) (m_end mt);
          Some (sub input i (m_begin mt) ++ format input mt fmt ++ rest)
      end
  end.

Definition regex_replace (input : list ascii) (r : regex) (fmt : list fmt_piece)
    : option (list ascii) :=
  replace_loop (2 * length input + 2) r fmt input false 0.

(** Whether [r] can match the empty text, and whether a text it matches
    can end with [x]; both err on the side of yes. *)
Fixpoint nullable (r : regex) : bool :=
  match r with
  | Empty | EndOfInput | Star _ | Opt _ => true
  | Char _ | AnyChar | WordChar | NoneOf _ => false
  | Seq r1 r2 => nullable r1 && nullable r2
  | Alt r1 r2 => nullable r1 || nullable r2
  | Plus r1 | Group _ r1 => nullable r1
  end.

Fixpoint end_char (r : regex) (x : ascii) : bool :=
  match r with
  | Empty | EndOfInput => false
  | Char a => Ascii.eqb a x
  | AnyChar => negb (is_line_end x)
  | WordChar => is_word_char x
  | NoneOf cs => negb (mem_ascii x cs)
  | Seq r1 r2 => end_char r2 x || (nullable r2 && end_char r1 x)
  | Alt r1 r2 => end_char r1 x || end_char r2 x
  | Star r1 | Plus r1 | Opt r1 | Group _ r1 => end_char r1 x
  end.

Definition ends (r : regex) (t : list ascii) : Prop :=
  match last t with
  | None => nullable r = true
  | Some x => end_char r x = true
  end.

(** What a continuation is run on: the input less a text [t] the pattern
    has consumed, and [t] is a text the pattern can end with. *)
Definition consumes (r : regex) (i : nat) (s : list ascii) (k : cont)
    (res : mresult) : Prop :=
  ∃ t s' c', s = t ++ s' ∧ k (i + length t) s' c' = Some res ∧ ends r t.

(** Two continuations that do the same on every rest of the input. *)
Definition agree (k1 k2 : cont) (i : nat) (s : list ascii) : Prop :=
  ∀ t s' c', s = t ++ s' → k1 (i + length t) s' c' = k2 (i + length t) s' c'.

End Regex.

(** ** Completion: the rewriting of the engine's raw candidates *)

Module Complete.
Import Regex.

Definition chars (t : string) : list ascii := list_ascii_of_string t.

(** The pattern [r1 r2 ... rn]. *)
Definition seq_of (rs : list regex) : regex := foldr Seq Empty rs.

(** First pattern of the loop, [\[\#.*\#\]]: a definition in square
    brackets at the beginning, as in [[#int#]]. *)
Definition re_definition : regex :=
  seq_of [Char "["; Char "#"; Star AnyChar; Char "#"; Char "]"].

(** Second pattern: a group of one space or one star, once or more; then a
    group of word characters, once or more; then the group [\#\>].  It
    finds the variable name in [<#type name#>]. *)
Definition re_variable_name : regex :=
  seq_of [Plus (Group 1 (Alt (Char " ") (Char "*")));
          Group 2 (Plus WordChar);
          Group 3 (seq_of [Char "#"; Char ">"])].

(** Third pattern: spaces, any number, then the group [\#\>]. *)
Definition re_trailing_space : regex :=
  seq_of [Star (Char " "); Group 1 (seq_of [Char "#"; Char ">"])].

(** Fourth pattern: [\<\#], a group of characters other than [#] and [>],
    any number, and [\#\>]. *)
Definition re_marker : regex :=
  seq_of [Char "<"; Char "#"; Group 1 (Star (NoneOf [ "#"; ">" ]%char));
          Char "#"; Char ">"].

(** The body of the loop over [result] in [complete_request_impl]: the four
    replacements in the order of the source; the formats are the empty
    one, [$1$3], [$1] and [$1]. *)
Definition rewrite_candidate (r : list ascii) : option (list ascii) :=
  r1 ← regex_replace r re_definition [];
  r2 ← regex_replace r1 re_variable_name [Sub 1; Sub 3];
  r3 ← regex_replace r2 re_trailing_space [Sub 1];
  regex_replace r3 re_marker [Sub 1].

(** [kernel_res["matches"]]: every candidate rewritten. *)
Definition rewrite_candidates (result : list string) : option (list string) :=
  mapM (fun r => string_of_list_ascii <$> rewrite_candidate (chars r)) result.

(** Whether [t] occurs in [s] ([s.find(t) != npos]). *)
Fixpoint occurs (t s : list ascii) : bool :=
  match s with
  | [] => bool_decide (t = [])
  | _ :: s' => bool_decide (t `prefix_of` s) || occurs t s'
  end.

End Complete.

(** ** Replies ([xeus::xjson]) *)

Module Json.

(** The JSON values the handlers build. *)
#[local] Unset Elimination Schemes.
Inductive json : Type :=
| JNull
| JString (s : string)
| JArray (l : list string)
| JObject (fields : gmap string json).
#[local] Set Elimination Schemes.

(** [j[key] = v].  A null value becomes an object; the handlers apply it to
    null values and objects only (on another value the library raises a
    type error, which no call of the file reaches). *)
Definition set_field (key : string) (v : json) (j : json) : json :=
  match j with
  | JNull => JObject {[ key := v ]}
  | JObject fields => JObject (<[ key := v ]> fields)
  | _ => j
  end.

Definition field (key : string) (j : json) : option json :=
  match j with
  | JObject fields => fields !! key
  | _ => None
  end.

(** [xeus::xjson::object()] *)
Definition object : json := JObject ∅.

End Json.

(** ** The interpreter *)

Module Interpreter.
Import Json.

Definition nl : string := String (ascii_of_nat 10) EmptyString.

(** [cling::Interpreter::CompilationResult] *)
Inductive CompilationResult : Type :=
| kSuccess
| kFailure
| kMoreInputExpected.

Global Instance CompilationResult_eq_dec : EqDecision CompilationResult.
Proof. solve_decision. Defined.

(** What [m_processor.process] can throw, by the handler that catches it:
    a [cling::InterpreterException] (with the answer of its [diagnose()]),
    another [std::exception], anything else. *)
Inductive exception : Type :=
| InterpreterException (diagnosed : bool) (what : string)
| StdException (what : string)
| OtherException.

(** How a call of [process] ends: it returns its error level or throws. *)
Inductive process_exit : Type :=
| Returned (errorlevel : Z)
| Thrown (e : exception).

Section Engine.

(** [St] is the state of the engine and of whatever else the handlers act
    upon; [V] is what a [cling::Value] holds when [hasValue()].  The
    [cling::Value output] of [execute_request_impl] is an [option V]. *)
Context {St V : Type}.

(** After a call of [process]: the state, how the call ended, and what the
    two variables passed by reference ([compilation_result], [output])
    hold. *)
Record process_result : Type := ProcessResult {
  pr_state : St;
  pr_exit : process_exit;
  pr_compilation_result : CompilationResult;
  pr_output : option V
}.

(** The engine: [cling::MetaProcessor] and the printer of [cling::Value].
    [process] reads the two variables it is given by reference, since it
    may leave them as they are. *)
Record engine : Type := Engine {
  process : St -> string -> CompilationResult -> option V -> process_result;
  cancelContinuation : St -> St;
  print : V -> string
}.

(** [xpreamble]: a handler with its predicate and its action on the code,
    the reply and the state. *)
Record xpreamble : Type := Preamble {
  is_match : string -> bool;
  apply : string -> json -> St -> json * St
}.

(** [xparser.hpp] *)
Record parser : Type := Parser {
  split_from_includes : string -> list string;
  trim : string -> string
}.

(** What [execute_request_impl] does that can be seen from outside, in the
    order it does it. *)
Inductive event : Type :=
| EvApply (name : string) (code : string)
| EvSplit (code : string)
| EvProcess (block : string) (exit : process_exit)
            (compilation_result : CompilationResult) (output : option V)
| EvDiagnose
| EvCerr (text : string)
| EvCancelContinuation
| EvPublishExecutionResult (execution_counter : Z) (pub_data : json) (metadata : json)
| EvFlushCout.

(** Modelled from the spec: the container [preamble_manager.preamble],
    declared in xpreamble.hpp, is an insertion-ordered mapping from the
    name to the handler. *)
Definition preamble_pool : Type := list (string * xpreamble).

(** Modelled from the spec: [register_preamble] of xpreamble.hpp inserts at
    the end of the order; for a name already there the last registration
    wins and the order stays. *)
Fixpoint register_preamble (name : string) (pre : xpreamble) (pool : preamble_pool)
    : preamble_pool :=
  match pool with
  | [] => [(name, pre)]
  | (n, p) :: pool' =>
      if String.eqb n name then (name, pre) :: pool'
      else (n, p) :: register_preamble name pre pool'
  end.

(** The pool after a sequence of registrations. *)
Definition register_all (regs : list (string * xpreamble)) : preamble_pool :=
  foldl (fun pool np => register_preamble np.1 np.2 pool) [] regs.

(** [init_preamble] *)
Definition init_preamble (introspection magics shell : xpreamble) : preamble_pool :=
  register_preamble "shell" shell
    (register_preamble "magics" magics
       (register_preamble "introspection" introspection [])).

(** [get_error_reply] *)
Definition get_error_reply (ename evalue : string) (trace_back : list string) : json :=
  let result := JNull in
  let result := set_field "status" (JString "error") result in
  let result := set_field "ename" (JString ename) result in
  let result := set_field "evalue" (JString evalue) result in
  let result := set_field "traceback" (JArray trace_back) result in
  result.

(** The first loop of [execute_request_impl]: the first handler of the pool
    that matches. *)
Fixpoint dispatch (pool : preamble_pool) (code : string) : option (string * xpreamble) :=
  match pool with
  | [] => None
  | (name, pre) :: pool' =>
      if is_match pre code then Some (name, pre) else dispatch pool' code
  end.

(** One insertion [std::cerr << text].  [std::cerr] is tied to [std::cout]
    ([redirect_output] changes the buffers of the streams, not the tie):
    before it writes, the insertion flushes [std::cout]. *)
Definition cerr_insert (text : string) : list event :=
  [EvFlushCout; EvCerr text].

(** What the three [catch] clauses do, insertion by insertion. *)
Definition catch_events (e : exception) : list event :=
  match e with
  | InterpreterException diagnosed what =>
      EvDiagnose ::
      (if diagnosed then []
       else cerr_insert ("Caught an interpreter exception!" +:+ nl)
              ++ cerr_insert what ++ cerr_insert nl)
  | StdException what =>
      cerr_insert ("Caught a std::exception!" +:+ nl) ++ cerr_insert what ++ cerr_insert nl
  | OtherException => cerr_insert ("Exception occurred. Recovering..." +:+ nl)
  end.

(** [errorlevel] after the [try]: assigned only when [process] returns. *)
Definition errorlevel_of (x : process_exit) : Z :=
  match x with
  | Returned n => n
  | Thrown _ => 0%Z
  end.

Definition exit_events (x : process_exit) : list event :=
  match x with
  | Returned _ => []
  | Thrown e => catch_events e
  end.

(** How the loop over the blocks ends: it runs through, or it returns the
    reply from inside. *)
Inductive loop_end : Type :=
| LoopDone (st : St) (compilation_result : CompilationResult) (output : option V)
| LoopReturn (kernel_res : json) (st : St).

(** What one round of the loop shows: the call and what its handler wrote. *)
Definition round_events (block : string) (r : process_result) : list event :=
  EvProcess block (pr_exit r) (pr_compilation_result r) (pr_output r)
  :: exit_events (pr_exit r).

(** The loop over the blocks, with the events of its rounds. *)
Fixpoint run_blocks (E : engine) (blocks : list string) (st : St)
    (compilation_result : CompilationResult) (output : option V)
    : list event * loop_end :=
  match blocks with
  | [] => ([], LoopDone st compilation_result output)
  | block :: blocks' =>
      let r := process E st block compilation_result output in
      let errorlevel := errorlevel_of (pr_exit r) in
      if bool_decide (errorlevel ≠ 0%Z) then
        (round_events block r ++ [EvCancelContinuation],
         LoopReturn (get_error_reply "ename" "evalue" [])
                    (cancelContinuation E (pr_state r)))
      else if bool_decide (pr_compilation_result r ≠ kSuccess) then
        (round_events block r,
         LoopReturn (get_error_reply "ename" "evalue" []) (pr_state r))
      else
        let '(evs, o) :=
          run_blocks E blocks' (pr_state r) (pr_compilation_result r) (pr_output r) in
        (round_events block r ++ evs, o)
  end.

(** [code.c_str()] made a [std::string] again: the text up to the first
    null character. *)
Fixpoint c_str (s : string) : string :=
  match s with
  | EmptyString => EmptyString
  | String a s' => if Ascii.eqb a (ascii_of_nat 0) then EmptyString else String a (c_str s')
  end.

(** [s.back()]; on an empty string the read is undefined. *)
Definition back (s : string) : option ascii := last (list_ascii_of_string s).

(** The test [output.hasValue() && trim(blocks.back()).back() != ';'];
    [None] when it reads past an empty block list or an empty string. *)
Definition shall_publish (P : parser) (blocks : list string) (output : option V)
    : option (option V) :=
  match output with
  | None => Some None
  | Some v =>
      b ← last blocks;
      c ← back (trim P b);
      Some (if bool_decide (c ≠ ";"%char) then Some v else None)
  end.

(** [execute_request_impl].  [compilation_result] is the value the local
    variable of that name happens to hold, the source does not initialise
    it.  The result is [None] when the behaviour is undefined. *)
Definition execute_request_impl (E : engine) (P : parser) (pool : preamble_pool)
    (execution_counter : Z) (code : string)
    (st : St) (compilation_result : CompilationResult)
    : option (json * St * list event) :=
  let kernel_res := JNull in
  match dispatch pool code with
  | Some (name, pre) =>
      let '(kernel_res, st) := apply pre code kernel_res st in
      Some (kernel_res, st, [EvApply name code])
  | None =>
      let blocks := split_from_includes P (c_str code) in
      let '(evs, o) := run_blocks E blocks st compilation_result None in
      let tr := EvSplit (c_str code) :: evs in
      match o with
      | LoopReturn kernel_res st => Some (kernel_res, st, tr)
      | LoopDone st _ output =>
          to_publish ← shall_publish P blocks output;
          let tr :=
            match to_publish with
            | Some v =>
                let pub_data := set_field "text/plain" (JString (print E v)) JNull in
                tr ++ [EvPublishExecutionResult execution_counter pub_data object]
            | None => tr
            end in
          let tr := tr ++ [EvFlushCout] in
          let kernel_res := set_field "status" (JString "ok") kernel_res in
          Some (kernel_res, st, tr)
      end
  end.

Definition is_process (e : event) : bool :=
  match e with EvProcess _ _ _ _ => true | _ => false end.

(** The blocks submitted to [process], in order. *)
Definition processed (tr : list event) : list string :=
  omap (fun e => match e with EvProcess b _ _ _ => Some b | _ => None end) tr.

(** The execution results published, in order. *)
Definition published (tr : list event) : list (Z * json * json) :=
  omap (fun e => match e with
                 | EvPublishExecutionResult n d md => Some (n, d, md)
                 | _ => None
                 end) tr.

(** The continuations cancelled. *)
Definition cancelled (tr : list event) : nat :=
  length (omap (fun e => match e with EvCancelContinuation => Some e | _ => None end) tr).

(** A call of [process] that makes the loop return: its error level is not
    zero, or the compilation result is not [kSuccess]. *)
Definition failing (x : process_exit) (c : CompilationResult) : Prop :=
  errorlevel_of x ≠ 0%Z ∨ c ≠ kSuccess.


(** What the first statements of [inspect_request_impl] come to: [substr]
    throws, the search finds nothing, or the search finds a text. *)
Inductive context : Type :=
| OutOfRange
| NoMatch
| Match (text : string).

(** [std::size_t(cursor_pos)] on a 64-bit target. *)
Definition size_t_of_int (n : Z) : N := Z.to_N (n mod 2 ^ 64).

(** [s.substr(pos, count)]: the [min count (size - pos)] characters from
    [pos] on; [None] is [std::out_of_range], thrown when [pos > size]. *)
Definition substr (s : string) (pos count : N) : option string :=
  let size := N.of_nat (String.length s) in
  if (size <? pos)%N then None
  else
    let rlen := N.min count (size - pos) in
    Some (string_of_list_ascii
            (take (N.to_nat rlen) (drop (N.to_nat pos) (list_ascii_of_string s)))).

(** The pattern [re_method]: a group, any number of times, then the end of
    the input.  The group is [exp] and an optional dot; [exp] is word
    characters, any number, and optionally one of: two colons, [<.*>],
    round brackets around [.*], square brackets around [.*]. *)
Definition re_exp : Regex.regex :=
  Regex.Seq (Regex.Star Regex.WordChar)
    (Regex.Opt
       (Regex.Alt (Regex.Seq (Regex.Char ":") (Regex.Char ":"))
       (Regex.Alt (Regex.Seq (Regex.Char "<") (Regex.Seq (Regex.Star Regex.AnyChar) (Regex.Char ">")))
       (Regex.Alt (Regex.Seq (Regex.Char "(") (Regex.Seq (Regex.Star Regex.AnyChar) (Regex.Char ")")))
                  (Regex.Seq (Regex.Char "[") (Regex.Seq (Regex.Star Regex.AnyChar) (Regex.Char "]"))))))).

Definition re_chain : Regex.regex :=
  Regex.Star (Regex.Group 1 (Regex.Seq re_exp (Regex.Opt (Regex.Char ".")))).

Definition re_method : Regex.regex := Regex.Seq re_chain Regex.EndOfInput.

(** The characters a token chain can end with: those of a word, and the
    last characters of the optional parts of [re_method]. *)
Definition chain_char (x : ascii) : bool :=
  Regex.is_word_char x || Regex.mem_ascii x [ ":"; ">"; ")"; "]"; "." ]%char.

(** The text before the cursor and the token chain that ends it: the first
    four statements of [inspect_request_impl].  [Match] and [NoMatch] are
    the results of [std::regex_search] where the call returns.  The
    library's matcher recurses to a depth that grows with the input and can
    backtrack for long; the stack and the time a call takes are not part of
    this description. *)
Definition cursor_context (code : string) (cursor_pos : Z) : context :=
  match substr code 0 (size_t_of_int cursor_pos) with
  | None => OutOfRange
  | Some dummy =>
      let input := list_ascii_of_string dummy in
      match Regex.regex_search re_method input with
      | Some magic => Match (string_of_list_ascii (Regex.matched_text input magic))
      | None => NoMatch
      end
  end.

(** [inspect_request_impl].  [inspect] is the function of xinspect.hpp; it
    receives the matched text, the reply and the processor.  [None] is an
    exception that leaves the handler. *)
Definition inspect_request_impl (inspect : string -> json -> St -> json * St)
    (code : string) (cursor_pos : Z) (st : St) : option (json * St) :=
  let kernel_res := JNull in
  match cursor_context code cursor_pos with
  | OutOfRange => None
  | NoMatch => Some (kernel_res, st)
  | Match text => Some (inspect text kernel_res st)
  end.

End Engine.

Arguments process_result : clear implicits.
Arguments engine : clear implicits.
Arguments xpreamble : clear implicits.
Arguments event : clear implicits.
Arguments preamble_pool : clear implicits.
Arguments loop_end : clear implicits.

End Interpreter.

(** ** The redirection of [std::cout] and [std::cerr] *)

Module Streams.

(** A [std::streambuf*]: null, a buffer of the process, or one of the two
    members [m_cout_buffer] and [m_cerr_buffer] of the interpreter. *)
Inductive streambuf : Type :=
| Nullptr
| ProcessBuf (address : N)
| CoutBuffer
| CerrBuffer.

(** [std::cout.rdbuf()] and [std::cerr.rdbuf()] *)
Record streams : Type := Streams {
  cout_rdbuf : streambuf;
  cerr_rdbuf : streambuf
}.

(** The members [p_cout_strbuf] and [p_cerr_strbuf]. *)
Record saved : Type := Saved {
  p_cout_strbuf : streambuf;
  p_cerr_strbuf : streambuf
}.

(** What the constructor gives the two members before it redirects. *)
Definition initial : saved := Saved Nullptr Nullptr.

Definition redirect_output (i : saved) (s : streams) : saved * streams :=
  let i := Saved (cout_rdbuf s) (p_cerr_strbuf i) in
  let i := Saved (p_cout_strbuf i) (cerr_rdbuf s) in
  let s := Streams CoutBuffer (cerr_rdbuf s) in
  let s := Streams (cout_rdbuf s) CerrBuffer in
  (i, s).

Definition restore_output (i : saved) (s : streams) : streams :=
  let s := Streams (p_cout_strbuf i) (cerr_rdbuf s) in
  let s := Streams (cout_rdbuf s) (p_cerr_strbuf i) in
  s.

End Streams.

(** ** A small engine, parser and handlers to run the handlers on *)

Module Demo.
Import Json Interpreter.

(** The state counts the calls of the engine; a value is an [int]. *)
Definition state : Type := nat.
Definition value : Type := Z.

(** An engine in the manner of cling's [MetaProcessor::process]: on entry
    it empties the value and sets the result to [kSuccess]; an incomplete
    input gives the expected indentation as error level; an exception of
    the code it runs leaves the result at [kSuccess]; one block throws
    after the result is set to [kFailure]. *)
Definition demo_process (st : state) (block : string)
    (compilation_result : CompilationResult) (output : option value)
    : process_result state value :=
  if String.eqb block "1 + 1" then
    ProcessResult (S st) (Returned 0) kSuccess (Some 2%Z)
  else if String.eqb block "int x = 41; x + 1" then
    ProcessResult (S st) (Returned 0) kSuccess (Some 42%Z)
  else if String.eqb block "int z = ;" then
    ProcessResult (S st) (Returned 0) kFailure None
  else if String.eqb block "void f() {" then
    ProcessResult (S st) (Returned 1) kMoreInputExpected None
  else if String.eqb block "throw 1;" then
    ProcessResult (S st) (Thrown OtherException) kSuccess None
  else if String.eqb block "#include <none>" then
    ProcessResult (S st) (Thrown (StdException "no such file")) kFailure None
  else
    ProcessResult (S st) (Returned 0) kSuccess None.

Definition show_digit (n : Z) : string :=
  String (ascii_of_nat (48 + Z.to_nat n)) EmptyString.

Definition demo_print (v : value) : string :=
  if (v <? 10)%Z then show_digit v
  else show_digit (v / 10) +:+ show_digit (v mod 10).

Definition demo_engine : engine state value :=
  Engine demo_process (fun st => st) demo_print.

(** An engine that yields a value whatever the block. *)
Definition eager_engine : engine state value :=
  Engine (fun st _ _ _ => ProcessResult (S st) (Returned 0) kSuccess (Some 7%Z))
         (fun st => st) demo_print.

(** An engine that reports the error level 2 on every block and leaves
    the compilation result at [kSuccess]. *)
Definition level_engine : engine state value :=
  Engine (fun st _ _ _ => ProcessResult (S st) (Returned 2) kSuccess None)
         (fun st => st) demo_print.


(** One block per line; [trim] removes the spaces at both ends. *)
Fixpoint lines (s : list ascii) (line : list ascii) : list (list ascii) :=
  match s with
  | [] => [rev line]
  | x :: s' =>
      if Ascii.eqb x (ascii_of_nat 10) then rev line :: lines s' []
      else lines s' (x :: line)
  end.

Fixpoint drop_spaces (s : list ascii) : list ascii :=
  match s with
  | x :: s' => if Ascii.eqb x " " then drop_spaces s' else s
  | [] => []
  end.

Definition demo_parser : parser :=
  Parser
    (fun code => string_of_list_ascii <$> lines (list_ascii_of_string code) [])
    (fun s => string_of_list_ascii
                (rev (drop_spaces (rev (drop_spaces (list_ascii_of_string s)))))).

(** Handlers: a magic that answers [ok], a shell escape whose command
    fails. *)
Definition starts_with (a : ascii) (code : string) : bool :=
  match code with
  | String x _ => Ascii.eqb x a
  | EmptyString => false
  end.

Definition demo_magics : xpreamble state :=
  Preamble (starts_with "%")
           (fun _ kernel_res st => (set_field "status" (JString "ok") kernel_res, st)).

Definition demo_shell : xpreamble state :=
  Preamble (starts_with "!")
           (fun _ kernel_res st => (set_field "status" (JString "error") kernel_res, st)).

Definition demo_introspection : xpreamble state :=
  Preamble (starts_with "?")
           (fun _ kernel_res st => (set_field "status" (JString "ok") kernel_res, st)).

Definition demo_registrations : list (string * xpreamble state) :=
  [("introspection", demo_introspection); ("magics", demo_magics); ("shell", demo_shell)].

Definition demo_pool : preamble_pool state :=
  init_preamble demo_introspection demo_magics demo_shell.

Definition demo_execute (code : string) :=
  execute_request_impl demo_engine demo_parser demo_pool 7 code 0 kFailure.



(** A block that throws, then a block with a value. *)
Definition fault_code : string := "throw 1;" +:+ nl +:+ "1 + 1".



(** A block that throws and leaves [kFailure], then a block with a value. *)
Definition include_code : string := "#include <none>" +:+ nl +:+ "1 + 1".


(** Two blocks with a value each. *)
Definition values_code : string := "int x = 41; x + 1" +:+ nl +:+ "1 + 1".

(** A block the compiler refuses, a block that is not complete. *)
Definition refused_code : string := "int z = ;" +:+ nl +:+ "1 + 1".
Definition incomplete_code : string := "void f() {" +:+ nl +:+ "1 + 1".

End Demo.

(** ** The other handlers: completion, kernel information, configuration *)

Module Requests.
Import Json Interpreter.

(** A value of a reply that holds numbers too. *)
Inductive xvalue : Type :=
| XJson (j : json)
| XNumber (n : Z).

Definition tab : string := String (ascii_of_nat 9) EmptyString.
Definition double_quote : string := String (ascii_of_nat 34) EmptyString.

(** [delims] of [complete_request_impl]: space, tab, newline, then the
    punctuation of the source in its order. *)
Definition delims : string :=
  " " +:+ tab +:+ nl +:+ "`!@#$^&*()=+[{]}\|;:'" +:+ double_quote +:+ ",<>?.".

Section Handlers.
Context {St : Type}.

(** What completion asks of its collaborators: [split_line] of xparser.hpp
    and [m_cling.codeComplete], which gives its result, the candidates and
    the state. *)
Record completer : Type := Completer {
  split_line : string -> string -> N -> list string;
  codeComplete : St -> string -> N -> CompilationResult * list string * St
}.

(** [cursor_pos - to_complete.length()]: the [int] is converted to
    [std::size_t] and the difference is taken modulo 2^64. *)
Definition cursor_start_of (cursor_pos : Z) (to_complete : string) : Z :=
  ((cursor_pos - Z.of_nat (String.length to_complete)) mod 2 ^ 64)%Z.

(** [complete_request_impl]; [None] when [text.back()] reads an empty
    vector or the fuel of a replacement runs out. *)
Definition complete_request_impl (C : completer) (code : string) (cursor_pos : Z)
    (st : St) : option (gmap string xvalue * St) :=
  let _cursor_pos := size_t_of_int cursor_pos in
  let text := split_line C code delims _cursor_pos in
  back_text ← last text;
  let to_complete := c_str back_text in
  let '(compilation_result, result, st) := codeComplete C st (c_str code) _cursor_pos in
  result ← Complete.rewrite_candidates result;
  let kernel_res : gmap string xvalue := ∅ in
  let kernel_res := <[ "matches" := XJson (JArray result) ]> kernel_res in
  let kernel_res := <[ "cursor_start" := XNumber (cursor_start_of cursor_pos to_complete) ]>
                      kernel_res in
  let kernel_res := <[ "cursor_end" := XNumber cursor_pos ]> kernel_res in
  let kernel_res := <[ "metadata" := XJson object ]> kernel_res in
  let kernel_res := <[ "status" := XJson (JString "ok") ]> kernel_res in
  Some (kernel_res, st).

(** [m_processor.process(block, compilation_result, nullptr, true)], the
    call without a place for the value: the state, how the call ended, the
    compilation result. *)
Definition quiet_process : Type :=
  St -> string -> CompilationResult -> St * process_exit * CompilationResult.

(** How [configure_impl] ends: the blocks it has given to [process], the
    state, and the exception that leaves it, if one does. *)
Record configured : Type := Configured {
  submitted : list string;
  cf_state : St;
  cf_thrown : option exception
}.

(** Straight-line calls without a [try]: the first call that throws ends
    the function; what a call returns is not looked at. *)
Fixpoint process_all (process : quiet_process) (blocks : list string) (st : St)
    (compilation_result : CompilationResult) : configured :=
  match blocks with
  | [] => Configured [] st None
  | block :: blocks' =>
      let '(st, x, compilation_result) := process st block compilation_result in
      match x with
      | Thrown e => Configured [block] st (Some e)
      | Returned _ =>
          let r := process_all process blocks' st compilation_result in
          Configured (block :: submitted r) (cf_state r) (cf_thrown r)
      end
  end.

End Handlers.

Arguments completer : clear implicits.
Arguments quiet_process : clear implicits.
Arguments configured : clear implicits.

(** [std::to_string] of an [intptr_t]. *)
Definition to_string (n : Z) : string := NilZero.string_of_int (Z.to_int n).

(** The raw string [work] of [configure_impl], line by line. *)
Definition work : string :=
  nl +:+ "namespace cling {" +:+ nl
  +:+ "  namespace runtime {" +:+ nl
  +:+ "    namespace internal {" +:+ nl
  +:+ "      template <class T>" +:+ nl
  +:+ "      void setValueNoAlloc(void* vpI, void* vpSVR, void* vpQT, char vpOn, T) {" +:+ nl
  +:+ "      }" +:+ nl
  +:+ "    }" +:+ nl
  +:+ "  }" +:+ nl
  +:+ "}" +:+ nl
  +:+ "        ".

(** The three blocks of [configure_impl]; [this] is the address of the
    interpreter. *)
Definition configure_blocks (this : Z) : list string :=
  [ "#include " +:+ double_quote +:+ "xeus/xinterpreter.hpp" +:+ double_quote;
    c_str ("xeus::register_interpreter(static_cast<xeus::xinterpreter*>((void*)"
             +:+ to_string this +:+ "));");
    c_str work ].

(** [configure_impl]; [compilation_result] is what the local variable
    happens to hold at first. *)
Definition configure_impl {St : Type} (process : quiet_process St) (this : Z) (st : St)
    (compilation_result : CompilationResult) : configured St :=
  process_all process (configure_blocks this) st compilation_result.

(** [result[k1][k2] = v]: the entry [k1], made an object when it is not
    there, gets the entry [k2]. *)
Definition set_field2 (k1 k2 : string) (v : json) (j : json) : json :=
  set_field k1 (set_field k2 v (default JNull (field k1 j))) j.

(** [kernel_info_request_impl] *)
Definition kernel_info_request_impl (m_version : string) : json :=
  let result := JNull in
  let result := set_field "protocol_version" (JString "5.0.0") result in
  let result := set_field "implementation" (JString "xeus-cling") result in
  let result := set_field "implementation_version" (JString "0.0.1") result in
  let result := set_field2 "language_info" "name" (JString "c++") result in
  let result := set_field2 "language_info" "version" (JString m_version) result in
  let result := set_field2 "language_info" "mimetype" (JString "text/x-c++src") result in
  let result := set_field2 "language_info" "codemirror_mode" (JString "text/x-c++src") result in
  let result := set_field2 "language_info" "file_extension" (JString ".cpp") result in
  result.

(** A pattern that cannot match a text without the character [a]. *)
Fixpoint needs (a : ascii) (r : Regex.regex) : bool :=
  match r with
  | Regex.Char b => Ascii.eqb b a
  | Regex.Seq r1 r2 => needs a r1 || needs a r2
  | Regex.Alt r1 r2 => needs a r1 && needs a r2
  | Regex.Plus r1 | Regex.Group _ r1 => needs a r1
  | _ => false
  end.

End Requests.

(** ** The texts a pattern matches *)

Module Language.
Import Regex Interpreter.

(** The language of a pattern; [$] is taken for the empty text. *)
Inductive lang : regex → list ascii → Prop :=
| L_empty : lang Empty []
| L_char a : lang (Char a) [a]
| L_any x : is_line_end x = false → lang AnyChar [x]
| L_word x : is_word_char x = true → lang WordChar [x]
| L_none_of cs x : mem_ascii x cs = false → lang (NoneOf cs) [x]
| L_seq r1 r2 t1 t2 : lang r1 t1 → lang r2 t2 → lang (Seq r1 r2) (t1 ++ t2)
| L_alt_l r1 r2 t : lang r1 t → lang (Alt r1 r2) t
| L_alt_r r1 r2 t : lang r2 t → lang (Alt r1 r2) t
| L_star_nil r : lang (Star r) []
| L_star_more r t1 t2 : lang r t1 → lang (Star r) t2 → lang (Star r) (t1 ++ t2)
| L_plus r t1 t2 : lang r t1 → lang (Star r) t2 → lang (Plus r) (t1 ++ t2)
| L_opt_nil r : lang (Opt r) []
| L_opt_some r t : lang r t → lang (Opt r) t
| L_group n r t : lang r t → lang (Group n r) t
| L_end : lang EndOfInput [].

(** The matcher runs its continuation on the input less a text of the
    language. *)
Definition sound (r : regex) : Prop :=
  ∀ i s c k res, m r i s c k = Some res →
    ∃ t s' c', s = t ++ s' ∧ k (i + length t) s' c' = Some res ∧ lang r t.

(** The characters that close a bracket of [re_method]. *)
Definition closer (x : ascii) : bool := mem_ascii x [ ">"; ")"; "]" ]%char.

(** A text in which every character no token chain ends with is followed,
    somewhere, by a closing bracket. *)
Definition closed (t : list ascii) : Prop :=
  ∀ u c w, t = u ++ c :: w → chain_char c = false → ∃ x, x ∈ w ∧ closer x = true.

End Language.

(** ** More to run the handlers on *)

Module DemoRequests.
Import Json Interpreter Demo Requests.

(** A splitter that gives no block at all. *)
Definition empty_parser : parser := Parser (fun _ => []) (fun s => s).

(** A completer: the word to complete is the code itself; the engine
    offers two candidates and reports a failure. *)
Definition demo_completer : completer state :=
  Completer (fun code _ _ => [code])
            (fun st _ _ => (kFailure, ["[#int#]size()"; "foo(<#int x#>)"], S st)).


(** A processor that throws on the registration block. *)
Definition throwing_process : quiet_process state :=
  fun st block _ =>
    if starts_with "x" block then (S st, Thrown OtherException, kSuccess)
    else (S st, Returned 0, kSuccess).

Definition nul : string := String (ascii_of_nat 0) EmptyString.

(** The events of the submission [include_code]: the call throws, the
    handler writes its three pieces, the error reply is returned. *)
Definition include_trace : list (event value) :=
  [EvSplit (c_str include_code);
   EvProcess "#include <none>" (Thrown (StdException "no such file")) kFailure None;
   EvFlushCout; EvCerr ("Caught a std::exception!" +:+ nl);
   EvFlushCout; EvCerr "no such file";
   EvFlushCout; EvCerr nl].

(** The events of the submission [refused_code]: the compiler refuses the
    first block, nothing is written. *)
Definition refused_trace : list (event value) :=
  [EvSplit (c_str refused_code); EvProcess "int z = ;" (Returned 0) kFailure None].

End DemoRequests.

(** * Properties *)

(** ** The matcher *)

Module RegexFacts.
Import Regex.

Lemma ends_nil r : ends r [] ↔ nullable r = true.
Proof. reflexivity. Qed.

Lemma ends_app_r r t x u : ends r (t ++ x :: u) ↔ ends r (x :: u).
Proof.
  unfold ends. rewrite last_app. destruct (last (x :: u)) eqn:E; [done|].
  apply last_None in E. discriminate.
Qed.

Lemma ends_cons_inv r x u : ends r (x :: u) → ∃ y, last (x :: u) = Some y ∧ end_char r y = true.
Proof.
  unfold ends. destruct (last (x :: u)) eqn:E; [eauto|].
  apply last_None in E. discriminate.
Qed.

Lemma ends_seq r1 r2 t1 t2 : ends r1 t1 → ends r2 t2 → ends (Seq r1 r2) (t1 ++ t2).
Proof.
  intros H1 H2. destruct t2 as [|x u].
  - rewrite app_nil_r. apply ends_nil in H2. destruct t1 as [|y v].
    + apply ends_nil in H1. apply ends_nil. simpl. by rewrite H1, H2.
    + destruct (ends_cons_inv _ _ _ H1) as (z & Hz & Hc).
      unfold ends. rewrite Hz. simpl. rewrite H2, Hc. apply orb_true_r.
  - apply ends_app_r. destruct (ends_cons_inv _ _ _ H2) as (z & Hz & Hc).
    unfold ends. rewrite Hz. simpl. by rewrite Hc.
Qed.

(** Going once more round a loop keeps the last character among those the
    body can end with. *)
Lemma ends_loop (wrap : regex → regex) r1 t1 t2 :
  (∀ x, end_char (wrap r1) x = end_char r1 x) →
  t1 ≠ [] → ends r1 t1 → (t2 = [] ∨ ends (wrap r1) t2) →
  ends (wrap r1) (t1 ++ t2).
Proof.
  intros Hw Hne H1 H2. destruct t2 as [|x u].
  - rewrite app_nil_r. destruct t1 as [|y v]; [done|].
    destruct (ends_cons_inv _ _ _ H1) as (z & Hz & Hc).
    unfold ends. rewrite Hz. by rewrite Hw.
  - destruct H2 as [?|H2]; [done|]. by apply ends_app_r.
Qed.

Lemma one_char_consumes p r i s c k res :
  (∀ x, p x = true → end_char r x = true) →
  one_char p i s c k = Some res → consumes r i s k res.
Proof.
  intros Hp. destruct s as [|x s']; simpl; [done|].
  destruct (p x) eqn:E; [|done]. intros H.
  exists [x], s', c. simpl. rewrite Nat.add_1_r. split_and!; [done|done|].
  unfold ends. simpl. auto.
Qed.

Lemma repeat_loop_consumes r1 k :
  (∀ i s c k' res,
     m r1 i s c k' = Some res → consumes r1 i s k' res) →
  ∀ fuel i s c res,
    repeat_loop (fun i' s' c' k' => m r1 i' s' (clear_captures (groups r1) c') k')
                k fuel i s c = Some res →
    ∃ t s' c', s = t ++ s' ∧ k (i + length t) s' c' = Some res
               ∧ (t = [] ∨ ends (Star r1) t).
Proof.
  intros Hbody. induction fuel as [|fuel IH]; intros i s c res; simpl.
  - intros H. exists [], s, c. rewrite Nat.add_0_r. auto.
  - destruct (m r1 i s _ _) as [res'|] eqn:E.
    + intros [= ->]. apply Hbody in E as (t1 & s1 & c1 & -> & Hk & He).
      destruct (Nat.eqb_spec (i + length t1) i) as [|Hne]; [done|].
      apply IH in Hk as (t2 & s2 & c2 & -> & Hk & He2).
      exists (t1 ++ t2), s2, c2. rewrite length_app, Nat.add_assoc, <- app_assoc.
      split_and!; [done|done|]. right.
      apply (ends_loop Star); [done| |done|done].
      intros ->. simpl in Hne. lia.
    + intros H. exists [], s, c. rewrite Nat.add_0_r. auto.
Qed.

Lemma m_consumes r : ∀ i s c k res, m r i s c k = Some res → consumes r i s k res.
Proof.
  induction r as [| a | | | cs | r1 IH1 r2 IH2 | r1 IH1 r2 IH2
                 | r1 IH1 | r1 IH1 | r1 IH1 | n r1 IH1 | ];
    intros i s c k res; simpl.
  - intros H. exists [], s, c. rewrite Nat.add_0_r. done.
  - by apply one_char_consumes.
  - by apply one_char_consumes.
  - by apply one_char_consumes.
  - by apply one_char_consumes.
  - intros H. apply IH1 in H as (t1 & s1 & c1 & -> & H & He1).
    apply IH2 in H as (t2 & s2 & c2 & -> & H & He2).
    exists (t1 ++ t2), s2, c2. rewrite length_app, Nat.add_assoc, <- app_assoc.
    split_and!; [done|done|]. by apply ends_seq.
  - destruct (m r1 i s c k) as [res'|] eqn:E.
    + intros [= ->]. apply IH1 in E as (t & s' & c' & -> & H & He).
      exists t, s', c'. split_and!; [done|done|].
      unfold ends in *. destruct (last t); simpl; rewrite He; done.
    + intros H. apply IH2 in H as (t & s' & c' & -> & H & He).
      exists t, s', c'. split_and!; [done|done|].
      unfold ends in *. destruct (last t); simpl; rewrite He; apply orb_true_r.
  - intros H. apply (repeat_loop_consumes r1 k IH1) in H
      as (t & s' & c' & -> & H & [->|He]).
    + by exists [], s', c'.
    + by exists t, s', c'.
  - intros H. apply IH1 in H as (t1 & s1 & c1 & -> & H & He1).
    apply (repeat_loop_consumes r1 k IH1) in H as (t2 & s2 & c2 & -> & H & He2).
    exists (t1 ++ t2), s2, c2. rewrite length_app, Nat.add_assoc, <- app_assoc.
    split_and!; [done|done|].
    destruct t2 as [|y w].
    + rewrite app_nil_r. unfold ends in *. by destruct (last t1).
    + apply ends_app_r. destruct He2 as [?|He2]; [done|].
      destruct (ends_cons_inv _ _ _ He2) as (z & Hz & Hc).
      unfold ends. by rewrite Hz.
  - destruct (m r1 i s _ _) as [res'|] eqn:E.
    + intros [= ->]. apply IH1 in E as (t & s' & c' & -> & H & He).
      destruct (Nat.eqb_spec (i + length t) i); [done|].
      exists t, s', c'. split_and!; [done|done|].
      unfold ends in *. by destruct (last t).
    + intros H. exists [], s, c. rewrite Nat.add_0_r. done.
  - intros H. apply IH1 in H as (t & s' & c' & -> & H & He).
    by exists t, s', (set_capture n (i, i + length t) c').
  - destruct s; [|done]. intros H. exists [], [], c. rewrite Nat.add_0_r. done.
Qed.

(** The matcher runs its continuation on rests of the input only. *)
Lemma agree_here k1 k2 i s c : agree k1 k2 i s → k1 i s c = k2 i s c.
Proof. intros H. specialize (H [] s c eq_refl). simpl in H. by rewrite Nat.add_0_r in H. Qed.

Lemma agree_suffix k1 k2 i t s : agree k1 k2 i (t ++ s) → agree k1 k2 (i + length t) s.
Proof.
  intros H u s' c' ->. specialize (H (t ++ u) s' c').
  rewrite length_app, Nat.add_assoc, <- app_assoc in H. by apply H.
Qed.

Lemma one_char_local p i s c k1 k2 :
  agree k1 k2 i s → one_char p i s c k1 = one_char p i s c k2.
Proof.
  intros H. destruct s as [|x s']; simpl; [done|]. destruct (p x); [|done].
  specialize (H [x] s' c eq_refl). simpl in H. by rewrite Nat.add_1_r in H.
Qed.

Lemma repeat_loop_local body k1 k2 :
  (∀ i s c k k', agree k k' i s → body i s c k = body i s c k') →
  ∀ fuel i s c, agree k1 k2 i s →
    repeat_loop body k1 fuel i s c = repeat_loop body k2 fuel i s c.
Proof.
  intros Hbody. induction fuel as [|fuel IH]; intros i s c Hk; simpl.
  - by apply agree_here.
  - rewrite (agree_here _ _ _ _ c Hk).
    rewrite (Hbody i s c _
               (fun i' s' c' => if Nat.eqb i' i then None
                                else repeat_loop body k2 fuel i' s' c')); [done|].
    intros t s' c' ->. destruct (Nat.eqb _ i); [done|].
    apply IH. by apply agree_suffix.
Qed.

Lemma m_local r : ∀ i s c k1 k2, agree k1 k2 i s → m r i s c k1 = m r i s c k2.
Proof.
  induction r as [| a | | | cs | r1 IH1 r2 IH2 | r1 IH1 r2 IH2
                 | r1 IH1 | r1 IH1 | r1 IH1 | n r1 IH1 | ];
    intros i s c k1 k2 Hk; simpl.
  - by apply agree_here.
  - by apply one_char_local.
  - by apply one_char_local.
  - by apply one_char_local.
  - by apply one_char_local.
  - apply IH1. intros t s' c' ->. apply IH2. by apply agree_suffix.
  - by rewrite (IH1 _ _ _ _ _ Hk), (IH2 _ _ _ _ _ Hk).
  - apply repeat_loop_local; [|done]. intros. by apply IH1.
  - apply IH1. intros t s' c' ->. apply repeat_loop_local.
    + intros. by apply IH1.
    + by apply agree_suffix.
  - rewrite (agree_here _ _ _ _ c Hk).
    rewrite (IH1 i s _ _ (fun i' s' c' => if Nat.eqb i' i then None else k2 i' s' c'));
      [done|].
    intros t s' c' Hs. destruct (Nat.eqb _ i); [done|]. by apply Hk.
  - apply IH1. intros t s' c' Hs. by apply Hk.
  - destruct s; [|done]. by apply agree_here.
Qed.

Lemma m_dead r i s c : m r i s c (fun _ _ _ => None) = None.
Proof.
  destruct (m r i s c _) as [res|] eqn:E; [|done].
  by apply m_consumes in E as (t & s' & c' & _ & [=] & _).
Qed.

(** A loop entered at the end of the input goes on with the rest of the
    pattern at once. *)
Lemma repeat_loop_nil r1 k fuel i c :
  repeat_loop (fun i' s' c' k' => m r1 i' s' (clear_captures (groups r1) c') k')
              k fuel i [] c = k i [] c.
Proof.
  destruct fuel as [|fuel]; simpl; [done|].
  rewrite (m_local r1 i [] _ _ (fun _ _ _ => None)).
  - by rewrite m_dead.
  - intros t s' c' Hs. symmetry in Hs. apply app_eq_nil in Hs as [-> ->].
    simpl. by rewrite Nat.add_0_r, Nat.eqb_refl.
Qed.

(** The fuel of the loop is enough: more of it changes nothing. *)
Lemma repeat_loop_fuel r1 k : ∀ n n' i s c,
  length s ≤ n → length s ≤ n' →
  repeat_loop (fun i' s' c' k' => m r1 i' s' (clear_captures (groups r1) c') k')
              k n i s c
  = repeat_loop (fun i' s' c' k' => m r1 i' s' (clear_captures (groups r1) c') k')
                k n' i s c.
Proof.
  induction n as [|n IH]; intros n' i s c Hn Hn'.
  - destruct s; [|simpl in Hn; lia]. by rewrite !repeat_loop_nil.
  - destruct n' as [|n'].
    { destruct s; [|simpl in Hn'; lia]. by rewrite !repeat_loop_nil. }
    simpl.
    rewrite (m_local r1 i s _ _
               (fun i' s' c' =>
                  if Nat.eqb i' i then None
                  else repeat_loop
                         (fun i' s' c' k' => m r1 i' s' (clear_captures (groups r1) c') k')
                         k n' i' s' c')); [done|].
    intros t s' c' ->. destruct (Nat.eqb_spec (i + length t) i) as [|Hne]; [done|].
    rewrite length_app in Hn, Hn'. apply IH; destruct t; simpl in *; lia.
Qed.

(** A match at [i] starts at [i], consumes a text the pattern can end
    with, and a text that is not empty when empty matches are refused. *)
Lemma match_at_sound not_null r i s mt :
  match_at not_null r i s = Some mt →
  m_begin mt = i ∧
  ∃ t s', s = t ++ s' ∧ m_end mt = i + length t ∧ ends r t
          ∧ (not_null = true → t ≠ []).
Proof.
  unfold match_at. destruct (m r i s [] _) as [[e c]|] eqn:E; [|done].
  intros [= <-]. simpl. split; [done|].
  apply m_consumes in E as (t & s' & c' & -> & H & He).
  exists t, s'. destruct not_null; simpl in H.
  - destruct (Nat.eqb_spec (i + length t) i) as [|Hne]; [done|].
    injection H as <- <-. split_and!; [done|done|done|].
    intros _ ->. simpl in Hne. lia.
  - injection H as <- <-. done.
Qed.

(** A match of a pattern closed by [$] takes the whole input. *)
Lemma match_at_to_end r i s mt :
  match_at false (Seq r EndOfInput) i s = Some mt →
  m_begin mt = i ∧ m_end mt = i + length s ∧ ends r s.
Proof.
  unfold match_at. simpl.
  destruct (m r i s [] _) as [[e c]|] eqn:E; [|done]. intros [= <-]. simpl.
  apply m_consumes in E as (t & s' & c' & -> & Hk & He).
  destruct s'; [|done]. injection Hk as <- _. by rewrite app_nil_r.
Qed.

(** A match found by a search lies within the text searched. *)
Lemma search_from_bounds r : ∀ s i mt,
  search_from r i s = Some mt →
  i ≤ m_begin mt ∧ m_begin mt ≤ m_end mt ∧ m_end mt ≤ i + length s.
Proof.
  induction s as [|x s IH]; intros i mt; simpl;
    destruct (match_at false r i _) as [mt'|] eqn:E; try done.
  - intros [= <-].
    apply match_at_sound in E as (-> & t & s' & Hs & -> & _).
    apply (f_equal length) in Hs. rewrite length_app in Hs. simpl in Hs. lia.
  - intros [= <-].
    apply match_at_sound in E as (-> & t & s' & Hs & -> & _).
    apply (f_equal length) in Hs. rewrite length_app in Hs. simpl in *. lia.
  - intros H. apply IH in H. simpl. lia.
Qed.

Lemma next_match_bounds r prev_empty i s mt :
  next_match r prev_empty i s = Some mt →
  i ≤ m_begin mt ∧ m_begin mt ≤ m_end mt ∧ m_end mt ≤ i + length s
  ∧ (prev_empty = true → i < m_end mt).
Proof.
  unfold next_match. destruct prev_empty.
  - destruct s as [|x s']; [done|].
    destruct (match_at true r i (x :: s')) as [mt'|] eqn:E.
    + intros [= <-].
      apply match_at_sound in E as (-> & t & u & Hs & -> & _ & Hne).
      apply (f_equal length) in Hs. rewrite length_app in Hs.
      destruct t; [by destruct Hne|]. simpl in *. lia.
    + intros H. apply search_from_bounds in H. simpl. lia.
  - intros H. apply search_from_bounds in H. split_and!; [lia..|done].
Qed.

(** The fuel of [regex_replace] does not run out. *)
Lemma replace_loop_total r fmt input : ∀ fuel (prev_empty : bool) i,
  i ≤ length input →
  2 * (length input - i) + (if prev_empty then 0 else 1) < fuel →
  is_Some (replace_loop fuel r fmt input prev_empty i).
Proof.
  induction fuel as [|fuel IH]; intros prev_empty i Hi Hfuel; [lia|].
  simpl. destruct (next_match r prev_empty i (drop i input)) as [mt|] eqn:E; [|eauto].
  apply next_match_bounds in E as (Hb & Hbe & He & Hpe).
  rewrite length_drop in He.
  destruct (IH (Nat.eqb (m_begin mt) (m_end mt)) (m_end mt)) as [rest ->];
    [lia| |by eexists].
  destruct (Nat.eqb_spec (m_begin mt) (m_end mt)); destruct prev_empty;
    try specialize (Hpe eq_refl); lia.
Qed.

Lemma regex_replace_total input r fmt : is_Some (regex_replace input r fmt).
Proof. apply replace_loop_total; lia. Qed.

End RegexFacts.

(** ** The loop over the blocks *)

Module LoopFacts.
Import Json Interpreter.

Section Loop.
Context {St V : Type} (E : engine St V).

Lemma exit_events_not_process x : forallb (fun e => negb (is_process e)) (exit_events (V := V) x) = true.
Proof. by destruct x as [n|[[] w|w|]]. Qed.

Lemma processed_app (l1 l2 : list (event V)) : processed (l1 ++ l2) = processed l1 ++ processed l2.
Proof. apply omap_app. Qed.

Lemma published_app (l1 l2 : list (event V)) : published (l1 ++ l2) = published l1 ++ published l2.
Proof. apply omap_app. Qed.

Lemma cancelled_app (l1 l2 : list (event V)) : cancelled (l1 ++ l2) = cancelled l1 + cancelled l2.
Proof. unfold cancelled. by rewrite omap_app, length_app. Qed.

Lemma processed_exit_events x : processed (exit_events (V := V) x) = [].
Proof. by destruct x as [n|[[] w|w|]]. Qed.

Lemma published_exit_events x : published (exit_events (V := V) x) = [].
Proof. by destruct x as [n|[[] w|w|]]. Qed.

Lemma cancelled_exit_events x : cancelled (exit_events (V := V) x) = 0.
Proof. by destruct x as [n|[[] w|w|]]. Qed.

Lemma processed_round b (r : process_result St V) : processed (round_events b r) = [b].
Proof. unfold round_events. simpl. by rewrite processed_exit_events. Qed.

Lemma published_round b (r : process_result St V) : published (round_events b r) = [].
Proof. unfold round_events. simpl. by rewrite published_exit_events. Qed.

Lemma cancelled_round b (r : process_result St V) : cancelled (round_events b r) = 0.
Proof. unfold round_events, cancelled. simpl. apply cancelled_exit_events. Qed.

(** One round, by what the call reports. *)
Lemma run_blocks_cons block blocks st cr out :
  let r := process E st block cr out in
  run_blocks E (block :: blocks) st cr out =
    if bool_decide (errorlevel_of (pr_exit r) ≠ 0%Z) then
      (round_events block r ++ [EvCancelContinuation],
       LoopReturn (get_error_reply "ename" "evalue" [])
                  (cancelContinuation E (pr_state r)))
    else if bool_decide (pr_compilation_result r ≠ kSuccess) then
      (round_events block r,
       LoopReturn (get_error_reply "ename" "evalue" []) (pr_state r))
    else
      (round_events block r
         ++ (run_blocks E blocks (pr_state r) kSuccess (pr_output r)).1,
       (run_blocks E blocks (pr_state r) kSuccess (pr_output r)).2).
Proof.
  simpl. repeat case_bool_decide; try done.
  assert (pr_compilation_result (process E st block cr out) = kSuccess) as ->
    by (by destruct (pr_compilation_result _)).
  by destruct (run_blocks E blocks _ _ _).
Qed.


(** A loop that runs through has submitted every block, publishes and
    cancels nothing, and leaves [kSuccess] behind unless there was no
    block. *)
Lemma run_blocks_done : ∀ blocks st cr out evs st' cr' out',
  run_blocks E blocks st cr out = (evs, LoopDone st' cr' out') →
  processed evs = blocks ∧ published evs = [] ∧ cancelled evs = 0.
Proof.
  induction blocks as [|b blocks IH]; intros st cr out evs st' cr' out'.
  - by intros [= <- _ _ _].
  - rewrite run_blocks_cons. cbv zeta. repeat case_bool_decide; try done.
    destruct (run_blocks E blocks _ _ _) as [evs1 o] eqn:Hrun. cbn [fst snd].
    intros [<- ->]%pair_equal_spec. apply IH in Hrun as (Hp & Hq & Hc).
    rewrite processed_app, published_app, cancelled_app,
      processed_round, published_round, cancelled_round, Hp, Hq, Hc. done.
Qed.

(** A loop that returns from inside returns the error reply. *)
Lemma run_blocks_return : ∀ blocks st cr out evs res st',
  run_blocks E blocks st cr out = (evs, LoopReturn res st') →
  res = get_error_reply "ename" "evalue" [] ∧ published evs = [].
Proof.
  induction blocks as [|b blocks IH]; intros st cr out evs res st'; [done|].
  rewrite run_blocks_cons. cbv zeta. repeat case_bool_decide.
  - intros [<- [= <- _]]%pair_equal_spec. by rewrite published_app, published_round.
  - intros [<- [= <- _]]%pair_equal_spec. by rewrite published_round.
  - destruct (run_blocks E blocks _ _ _) as [evs1 o] eqn:Hrun. cbn [fst snd].
    intros [<- ->]%pair_equal_spec. apply IH in Hrun as [-> Hq].
    by rewrite published_app, published_round, Hq.
Qed.

(** Events that are no calls of [process] stand before a call or after it
    as a whole. *)
Lemma split_at_process (l1 l2 before tail : list (event V)) e :
  forallb (fun e => negb (is_process e)) l1 = true →
  is_process e = true →
  l1 ++ l2 = before ++ e :: tail →
  ∃ before', before = l1 ++ before' ∧ l2 = before' ++ e :: tail.
Proof.
  revert before. induction l1 as [|a l1 IH]; intros before Hl1 He Heq.
  - by exists before.
  - simpl in Hl1. apply andb_true_iff in Hl1 as [Ha Hl1].
    destruct before as [|a' before]; simpl in Heq.
    + injection Heq as -> _. rewrite He in Ha. done.
    + injection Heq as <- Heq. destruct (IH _ Hl1 He Heq) as (b' & -> & ->).
      by exists b'.
Qed.

(** Every call of [process] in the events of the loop is the round of one
    block: the blocks before it ran through with the events before it, and
    the loop over the blocks from there on shows the events from there
    on. *)
Lemma run_blocks_round : ∀ blocks st cr out evs o before b x c v tail,
  run_blocks E blocks st cr out = (evs, o) →
  evs = before ++ EvProcess b x c v :: tail →
  ∃ pre post st1 cr1 out1,
    blocks = pre ++ b :: post ∧
    run_blocks E pre st cr out = (before, LoopDone st1 cr1 out1) ∧
    pr_exit (process E st1 b cr1 out1) = x ∧
    pr_compilation_result (process E st1 b cr1 out1) = c ∧
    pr_output (process E st1 b cr1 out1) = v ∧
    run_blocks E (b :: post) st1 cr1 out1 = (EvProcess b x c v :: tail, o).
Proof.
  induction blocks as [|b0 blocks IH]; intros st cr out evs o before b x c v tail Hrun Hevs.
  - injection Hrun as <- _. by destruct before.
  - destruct before as [|e0 before].
    + simpl in Hevs. subst evs. pose proof Hrun as Hhead.
      rewrite run_blocks_cons in Hhead. cbv zeta in Hhead.
      assert (b0 = b ∧ pr_exit (process E st b0 cr out) = x
              ∧ pr_compilation_result (process E st b0 cr out) = c
              ∧ pr_output (process E st b0 cr out) = v) as (-> & Hx & Hc & Hv).
      { repeat case_bool_decide; apply pair_equal_spec in Hhead as [Hb _];
          unfold round_events in Hb; simpl in Hb; by injection Hb. }
      by exists [], blocks, st, cr, out.
    + rewrite run_blocks_cons in Hrun. cbv zeta in Hrun.
      set (r := process E st b0 cr out) in *. subst evs.
      assert (∀ l, round_events b0 r ++ l = (e0 :: before) ++ EvProcess b x c v :: tail →
                   ∃ before', e0 :: before = round_events b0 r ++ before'
                              ∧ l = before' ++ EvProcess b x c v :: tail) as Hsplit.
      { intros l Hl. injection Hl as <- Hl.
        destruct (split_at_process _ _ _ _ (EvProcess b x c v) (exit_events_not_process _) eq_refl Hl)
          as (b' & -> & ->).
        by exists b'. }
      repeat case_bool_decide.
      * apply pair_equal_spec in Hrun as [Hevs _].
        apply Hsplit in Hevs as (b' & _ & Hl).
        destruct b' as [|? [|]]; discriminate.
      * apply pair_equal_spec in Hrun as [Hevs _].
        rewrite <- (app_nil_r (round_events _ _)) in Hevs.
        apply Hsplit in Hevs as (b' & _ & Hl). by destruct b'.
      * destruct (run_blocks E blocks _ _ _) as [evs1 o1] eqn:Hrun1. cbn [fst snd] in Hrun.
        apply pair_equal_spec in Hrun as [Hevs ->].
        apply Hsplit in Hevs as (b' & Hbefore & Hl).
        destruct (IH _ _ _ _ _ _ _ _ _ _ _ Hrun1 Hl)
          as (pre & post & st1 & cr1 & out1 & -> & Hpre & Hx & Hc & Hv & Hpost).
        exists (b0 :: pre), post, st1, cr1, out1.
        split; [done|]. split; [|done].
        rewrite run_blocks_cons. cbv zeta. fold r.
        do 2 (case_bool_decide; [done|]). rewrite Hpre. cbn [fst snd].
        by rewrite Hbefore.
Qed.

(** The round of a failing call is the last one: the loop returns the
    error reply, after cancelling the continuation when the error level is
    not zero. *)
Lemma failing_round blocks st cr out evs o before b x c v tail :
  run_blocks E blocks st cr out = (evs, o) →
  evs = before ++ EvProcess b x c v :: tail →
  failing x c →
  ∃ pre post st',
    blocks = pre ++ b :: post ∧ processed before = pre ∧
    published before = [] ∧ cancelled before = 0 ∧
    o = LoopReturn (get_error_reply "ename" "evalue" []) st' ∧
    tail = exit_events x
             ++ (if bool_decide (errorlevel_of x ≠ 0%Z) then [EvCancelContinuation] else []).
Proof.
  intros Hrun Hevs Hfail.
  destruct (run_blocks_round _ _ _ _ _ _ _ _ _ _ _ _ Hrun Hevs)
    as (pre & post & st1 & cr1 & out1 & -> & Hpre & Hx & Hc & Hv & Hpost).
  apply run_blocks_done in Hpre as (Hp & Hq & Hn).
  rewrite run_blocks_cons in Hpost. cbv zeta in Hpost. rewrite Hx, Hc in Hpost.
  unfold round_events in Hpost. rewrite Hx in Hpost.
  repeat case_bool_decide.
  - apply pair_equal_spec in Hpost as [[= <-] <-]. by eexists pre, post, _.
  - apply pair_equal_spec in Hpost as [[= <-] <-].
    rewrite app_nil_r. by eexists pre, post, _.
  - destruct Hfail; done.
Qed.





End Loop.

End LoopFacts.

(** ** The handlers of the interpreter *)

Import Json Interpreter.

Section Execute.
Context {St V : Type} (E : engine St V) (P : parser).

(** *** The pool of preambles *)

Lemma register_preamble_fresh name (pre : xpreamble St) pool :
  name ∉ pool.*1 → register_preamble name pre pool = pool ++ [(name, pre)].
Proof.
  induction pool as [|[n p] pool IH]; simpl; [done|].
  intros Hn. apply not_elem_of_cons in Hn as [Hne Hn].
  destruct (String.eqb_spec n name); [congruence|]. by rewrite IH.
Qed.

(** Handlers registered under different names stand in the pool in the
    order of their registration. *)
Lemma register_all_order (regs : list (string * xpreamble St)) :
  NoDup regs.*1 → register_all regs = regs.
Proof.
  unfold register_all. induction regs as [|[n p] regs IH] using rev_ind; [done|].
  rewrite fmap_app, foldl_app. simpl. intros Hnd.
  apply NoDup_app in Hnd as (Hnd & Hn & _). rewrite IH by done.
  apply register_preamble_fresh. intros Hin. apply (Hn _ Hin).
  simpl. apply list_elem_of_singleton. done.
Qed.

Lemma init_preamble_order (introspection magics shell : xpreamble St) :
  init_preamble introspection magics shell =
    [("introspection", introspection); ("magics", magics); ("shell", shell)].
Proof. reflexivity. Qed.

Lemma dispatch_first pool before name (pre : xpreamble St) after code :
  pool = before ++ (name, pre) :: after →
  Forall (fun np => is_match np.2 code = false) before →
  is_match pre code = true →
  dispatch pool code = Some (name, pre).
Proof.
  intros -> Hbefore Hpre. induction Hbefore as [|[n p] before Hn _ IH]; simpl.
  - by rewrite Hpre.
  - simpl in Hn. by rewrite Hn.
Qed.

(** C1.  When a handler of the pool matches the code, the reply of
    [execute_request_impl] is what the first matching handler, in the order
    of the pool, makes of the empty reply, and the only thing
    [execute_request_impl] does is to apply that handler: the code is not
    split, no block is given to [process], no execution result is
    published.  The order of the pool is the order of registration
    ([register_all_order], [init_preamble_order]). *)
Theorem execute_preamble_short_circuit pool before name pre after
    execution_counter code st cr :
  pool = before ++ (name, pre) :: after →
  Forall (fun np => is_match np.2 code = false) before →
  is_match pre code = true →
  ∃ tr,
    execute_request_impl E P pool execution_counter code st cr =
      Some ((apply pre code JNull st).1, (apply pre code JNull st).2, tr)
    ∧ tr = [EvApply name code]
    ∧ (∀ text, EvSplit text ∉ tr) ∧ processed tr = [] ∧ published tr = [].
Proof.
  intros Hpool Hbefore Hpre. exists [EvApply name code].
  unfold execute_request_impl.
  rewrite (dispatch_first _ _ _ _ _ _ Hpool Hbefore Hpre).
  destruct (apply pre code JNull st) as [res st']. simpl.
  split_and!; try done. by intros text [=]%list_elem_of_singleton.
Qed.

(** *** The loop and the reply *)

Lemma execute_return pool execution_counter code st cr evs res st' :
  dispatch pool code = None →
  run_blocks E (split_from_includes P (c_str code)) st cr None = (evs, LoopReturn res st') →
  execute_request_impl E P pool execution_counter code st cr =
    Some (res, st', EvSplit (c_str code) :: evs).
Proof. intros Hd Hrun. unfold execute_request_impl. by rewrite Hd, Hrun. Qed.

Lemma execute_done pool execution_counter code st cr evs st' cr' out :
  dispatch pool code = None →
  run_blocks E (split_from_includes P (c_str code)) st cr None = (evs, LoopDone st' cr' out) →
  execute_request_impl E P pool execution_counter code st cr =
    to_publish ← shall_publish P (split_from_includes P (c_str code)) out;
    Some (set_field "status" (JString "ok") JNull, st',
          (EvSplit (c_str code) :: evs)
            ++ match to_publish with
               | Some v =>
                   [EvPublishExecutionResult execution_counter
                      (set_field "text/plain" (JString (print E v)) JNull) object]
               | None => []
               end ++ [EvFlushCout]).
Proof.
  intros Hd Hrun. unfold execute_request_impl. rewrite Hd, Hrun.
  destruct (shall_publish _ _ _) as [[v|]|]; simpl; by rewrite <- ?app_assoc.
Qed.

Lemma error_reply_fields :
  field "status" (get_error_reply "ename" "evalue" []) = Some (JString "error")
  ∧ field "ename" (get_error_reply "ename" "evalue" []) = Some (JString "ename")
  ∧ field "evalue" (get_error_reply "ename" "evalue" []) = Some (JString "evalue")
  ∧ field "traceback" (get_error_reply "ename" "evalue" []) = Some (JArray []).
Proof. by vm_compute. Qed.

(** C2.  In a submission that no preamble handles, let a call of [process]
    return an error level that is not zero, or leave a compilation result
    that is not [kSuccess].  Then [execute_request_impl] returns the reply
    with status [error], that call is the last call of [process], and the
    blocks given to [process] are the blocks of the submission up to and
    including the failing one: no block after it is tried. *)
Theorem failing_fragment_aborts pool execution_counter code st cr b x c v :
  dispatch pool code = None →
  EvProcess b x c v ∈ (run_blocks E (split_from_includes P (c_str code)) st cr None).1 →
  (∃ errorlevel, x = Returned errorlevel ∧ errorlevel ≠ 0%Z) ∨ c ≠ kSuccess →
  ∃ reply st' before tail,
    execute_request_impl E P pool execution_counter code st cr =
      Some (reply, st', EvSplit (c_str code) :: before ++ EvProcess b x c v :: tail)
    ∧ field "status" reply = Some (JString "error")
    ∧ processed tail = []
    ∧ (processed before ++ [b]) `prefix_of` split_from_includes P (c_str code).
Proof.
  intros Hd Hin Hraw.
  assert (failing x c) as Hfail.
  { destruct Hraw as [(n & -> & Hn)|Hc]; [by left|by right]. }
  destruct (run_blocks E _ st cr None) as [evs o] eqn:Hrun.
  apply list_elem_of_split in Hin as (before & tail & Hevs). simpl in Hevs.
  destruct (LoopFacts.failing_round E _ _ _ _ _ _ _ _ _ _ _ _ Hrun Hevs Hfail)
    as (pre & post & st' & Hblocks & Hp & _ & _ & -> & Htail).
  exists (get_error_reply "ename" "evalue" []), st', before, tail.
  rewrite (execute_return _ _ _ _ _ _ _ _ Hd Hrun), Hevs.
  split_and!; [done|apply error_reply_fields| |].
  - rewrite Htail, LoopFacts.processed_app, LoopFacts.processed_exit_events.
    by case_bool_decide.
  - rewrite Hblocks, Hp. exists post. by rewrite <- app_assoc.
Qed.


(** C4, as the code has it.  When a call of [process] fails, the
    continuation is cancelled exactly when the error level of the call is
    not zero, and then as the last thing before the error reply is
    returned; with an error level of zero and a compilation result other
    than [kSuccess] the error reply is returned and nothing is cancelled. *)
Theorem cancel_iff_errorlevel pool execution_counter code st cr b x c v :
  dispatch pool code = None →
  EvProcess b x c v ∈ (run_blocks E (split_from_includes P (c_str code)) st cr None).1 →
  failing x c →
  ∃ st' tr,
    execute_request_impl E P pool execution_counter code st cr =
      Some (get_error_reply "ename" "evalue" [], st', tr)
    ∧ (errorlevel_of x ≠ 0%Z → cancelled tr = 1 ∧ last tr = Some EvCancelContinuation)
    ∧ (errorlevel_of x = 0%Z → cancelled tr = 0).
Proof.
  intros Hd Hin Hfail.
  destruct (run_blocks E _ st cr None) as [evs o] eqn:Hrun.
  apply list_elem_of_split in Hin as (before & tail & Hevs). simpl in Hevs.
  destruct (LoopFacts.failing_round E _ _ _ _ _ _ _ _ _ _ _ _ Hrun Hevs Hfail)
    as (pre & post & st' & Hblocks & Hp & _ & Hn & -> & Htail).
  eexists st', _. rewrite (execute_return _ _ _ _ _ _ _ _ Hd Hrun), Hevs.
  split; [done|].
  change (EvSplit (c_str code) :: before ++ EvProcess b x c v :: tail)
    with ([EvSplit (c_str code)] ++ before ++ [EvProcess b x c v] ++ tail).
  rewrite !LoopFacts.cancelled_app, Hn, Htail, LoopFacts.cancelled_app,
    LoopFacts.cancelled_exit_events.
  split; intros Hx; case_bool_decide; try done.
  split; [done|]. by rewrite !app_assoc, last_snoc.
Qed.


(** C6, as the code has it.  For a submission that no preamble handles, a
    reply with status [error] is the reply made by [get_error_reply] with
    the fixed arguments: its [ename] is the text ename, its [evalue] the
    text evalue, its [traceback] the empty sequence.  (A preamble that
    handles the submission makes its reply itself.) *)
Theorem error_reply_placeholders pool execution_counter code st cr reply st' tr :
  dispatch pool code = None →
  execute_request_impl E P pool execution_counter code st cr = Some (reply, st', tr) →
  field "status" reply = Some (JString "error") →
  reply = get_error_reply "ename" "evalue" []
  ∧ field "ename" reply = Some (JString "ename")
  ∧ field "evalue" reply = Some (JString "evalue")
  ∧ field "traceback" reply = Some (JArray []).
Proof.
  intros Hd Hex Hstatus.
  destruct (run_blocks E (split_from_includes P (c_str code)) st cr None)
    as [evs [st1 cr1 out|res st1]] eqn:Hrun.
  - rewrite (execute_done _ _ _ _ _ _ _ _ _ Hd Hrun) in Hex.
    destruct (shall_publish _ _ _); [|done]. simpl in Hex.
    injection Hex as <- _ _. by vm_compute in Hstatus.
  - rewrite (execute_return _ _ _ _ _ _ _ _ Hd Hrun) in Hex. injection Hex as <- _ _.
    apply LoopFacts.run_blocks_return in Hrun as [-> _].
    split; [done|]. apply error_reply_fields.
Qed.


End Execute.

(** ** Inspection: the token chain before the cursor *)

Section Inspect.
Import Regex.

Lemma re_chain_end_char x : end_char re_chain x = chain_char x.
Proof. destruct x as [[] [] [] [] [] [] [] []]; reflexivity. Qed.

(** At the end of the input the pattern matches the empty text. *)
Lemma match_at_re_method_nil i : match_at false re_method i [] = Some (SMatch i i []).
Proof. reflexivity. Qed.

(** A match of the pattern reaches the end of the input, and when it is not
    empty the input ends with a character of a token chain. *)
Lemma match_at_re_method i s mt :
  match_at false re_method i s = Some mt →
  m_begin mt = i ∧ m_end mt = i + length s
  ∧ (s ≠ [] → ∃ x, last s = Some x ∧ chain_char x = true).
Proof.
  intros (Hb & He & Hends)%RegexFacts.match_at_to_end. split_and!; [done|done|].
  intros Hne. destruct s as [|a s]; [done|].
  destruct (RegexFacts.ends_cons_inv _ _ _ Hends) as (x & Hx & Hc).
  exists x. by rewrite <- re_chain_end_char.
Qed.

(** The search always finds a match, which reaches the end of the input. *)
Lemma search_re_method : ∀ s i,
  ∃ mt, search_from re_method i s = Some mt
        ∧ i ≤ m_begin mt ∧ m_end mt = i + length s
        ∧ (m_begin mt < m_end mt → ∃ x, last s = Some x ∧ chain_char x = true).
Proof.
  induction s as [|a s IH]; intros i.
  - exists (SMatch i i []). cbn [search_from]. rewrite match_at_re_method_nil.
    simpl. split_and!; [done|lia|lia|lia].
  - cbn [search_from]. destruct (match_at false re_method i (a :: s)) as [mt|] eqn:E.
    + exists mt. apply match_at_re_method in E as (-> & -> & Hlast).
      split_and!; [done|lia|done|]. intros _. by apply Hlast.
    + destruct (IH (S i)) as (mt & -> & Hb & He & Hlast).
      exists mt. simpl. split_and!; [done|lia|lia|].
      intros Hlt. destruct (Hlast Hlt) as (x & Hx & Hc). exists x. split; [|done].
      destruct s; [done|]. by rewrite last_cons_cons.
Qed.

(** The result of the extraction, where the search returns.  [substr]
    does not throw, since it starts at 0, and the pattern matches the
    empty text at the end, so that the result of the search is a match.
    The text matched is the end of the text before the cursor; it is the
    empty text when the text before the cursor is empty or ends with a
    character no token chain ends with.  The extraction reads [code] and
    [cursor_pos] only: [inspect] receives the text, the empty reply and the
    state [inspect_request_impl] was called in.  Whether the library's
    matcher reaches this result within its stack is not stated here. *)
Lemma cursor_context_result {St : Type} (inspect : string → Json.json → St → Json.json * St)
    (code : string) (cursor_pos : Z) (st : St) :
  ∃ dummy text,
    substr code 0 (size_t_of_int cursor_pos) = Some dummy
    ∧ cursor_context code cursor_pos = Match text
    ∧ (∃ before, list_ascii_of_string dummy = before ++ list_ascii_of_string text)
    ∧ match back dummy with
      | None => text = EmptyString
      | Some x => chain_char x = false → text = EmptyString
      end
    ∧ inspect_request_impl inspect code cursor_pos st
      = Some (inspect text Json.JNull st).
Proof.
  unfold inspect_request_impl, cursor_context, substr, regex_search.
  cbv zeta. rewrite (proj2 (N.ltb_ge _ 0)) by lia.
  set (dummy := string_of_list_ascii _).
  destruct (search_re_method (list_ascii_of_string dummy) 0) as (mt & -> & Hb & He & Hlast).
  exists dummy, (string_of_list_ascii (matched_text (list_ascii_of_string dummy) mt)).
  split_and!; try done.
  - exists (take (m_begin mt) (list_ascii_of_string dummy)).
    rewrite list_ascii_of_string_of_list_ascii. unfold matched_text, sub.
    rewrite He. simpl. rewrite <- (length_drop _ (m_begin mt)), firstn_all.
    by rewrite take_drop.
  - unfold back, matched_text, sub.
    assert (m_begin mt < m_end mt ∨ m_end mt - m_begin mt = 0) as [Hlt| ->] by lia;
      [|by destruct (last _)].
    destruct (Hlast Hlt) as (x & -> & Hc). intros Hx. congruence.
Qed.

End Inspect.

(** ** The redirection of the standard streams *)

Section Redirect.
Import Streams.

(** C7.  Whatever the two standard streams write to, and whatever the two
    members hold, [redirect_output] followed by [restore_output] leaves the
    targets of both streams as they were; in between, the streams write to
    the two buffers of the interpreter and the members hold the former
    targets. *)
Theorem redirect_restore_roundtrip (i : saved) (s : streams) :
  restore_output (redirect_output i s).1 (redirect_output i s).2 = s
  ∧ (redirect_output i s).2 = Streams CoutBuffer CerrBuffer
  ∧ (redirect_output i s).1 = Saved (cout_rdbuf s) (cerr_rdbuf s).
Proof. by destruct s, i. Qed.

(** The constructor redirects, the destructor restores. *)
Example construct_destruct (s : streams) :
  restore_output (redirect_output initial s).1 (redirect_output initial s).2 = s.
Proof. by destruct s. Qed.

End Redirect.

(** ** Completion *)

Section Completion.
Import Regex Complete.

(** C8, as the code has it.  The four replacements turn the candidate
    [foo(<#int#> x<#>#)] into [foo(int x<#>#)]: the marker around [int] is
    removed, while [<#>#], which is no marker with a type between [<#] and
    [#>], stays as it is. *)
Theorem rewrite_candidate_scenario :
  rewrite_candidate (chars "foo(<#int#> x<#>#)") = Some (chars "foo(int x<#>#)").
Proof. by vm_compute. Qed.

(** A candidate as the engine gives them. *)
Example rewrite_candidate_signature :
  rewrite_candidate (chars "[#int#]foo(<#int x#>, <#double y#>)")
  = Some (chars "foo(int, double)").
Proof. by vm_compute. Qed.

End Completion.

(** ** The handlers at work *)

Section Runs.
Import Demo Regex Complete.

Example demo_pool_order : register_all demo_registrations = demo_pool.
Proof. reflexivity. Qed.

Lemma execute_preamble_short_circuit_run :
  ∃ tr,
    demo_execute "%timeit f()" =
      Some ((apply demo_magics "%timeit f()" JNull 0).1,
            (apply demo_magics "%timeit f()" JNull 0).2, tr)
    ∧ tr = [EvApply "magics" "%timeit f()"]
    ∧ (∀ text, EvSplit text ∉ tr) ∧ processed tr = [] ∧ published tr = [].
Proof.
  apply (execute_preamble_short_circuit demo_engine demo_parser demo_pool
           [("introspection", demo_introspection)] "magics" demo_magics
           [("shell", demo_shell)]).
  - reflexivity.
  - repeat constructor.
  - reflexivity.
Defined.

Lemma failing_fragment_aborts_run :
  (∃ reply st' before tail,
     execute_request_impl level_engine demo_parser demo_pool 7 values_code 0 kFailure =
       Some (reply, st',
             EvSplit (c_str values_code)
               :: before ++ EvProcess "int x = 41; x + 1" (Returned 2) kSuccess None :: tail)
     ∧ field "status" reply = Some (JString "error")
     ∧ processed tail = []
     ∧ (processed before ++ ["int x = 41; x + 1"])
         `prefix_of` split_from_includes demo_parser (c_str values_code))
  ∧ (∃ reply st' before tail,
     demo_execute refused_code =
       Some (reply, st',
             EvSplit (c_str refused_code)
               :: before ++ EvProcess "int z = ;" (Returned 0) kFailure None :: tail)
     ∧ field "status" reply = Some (JString "error")
     ∧ processed tail = []
     ∧ (processed before ++ ["int z = ;"])
         `prefix_of` split_from_includes demo_parser (c_str refused_code)).
Proof.
  split.
  - apply (failing_fragment_aborts level_engine demo_parser demo_pool 7 values_code 0 kFailure).
    + reflexivity.
    + vm_compute. apply list_elem_of_here.
    + left. exists 2%Z. split; [reflexivity|discriminate].
  - apply (failing_fragment_aborts demo_engine demo_parser demo_pool 7 refused_code 0 kFailure).
    + reflexivity.
    + vm_compute. apply list_elem_of_here.
    + right. discriminate.
Defined.



(** Not what C4 says: the compilation result is [kFailure], the error level
    is zero, the error reply is returned and nothing has been cancelled. *)
Lemma failure_without_cancel :
  demo_execute refused_code =
    Some (get_error_reply "ename" "evalue" [], 1,
          [EvSplit (c_str refused_code); EvProcess "int z = ;" (Returned 0) kFailure None])
  ∧ cancelled [EvSplit (c_str refused_code);
               EvProcess (V := value) "int z = ;" (Returned 0) kFailure None] = 0.
Proof. split; by vm_compute. Qed.

Lemma cancel_iff_errorlevel_run :
  (∃ st' tr,
     demo_execute incomplete_code = Some (get_error_reply "ename" "evalue" [], st', tr)
     ∧ cancelled tr = 1 ∧ last tr = Some EvCancelContinuation)
  ∧ (∃ st' tr,
     demo_execute refused_code = Some (get_error_reply "ename" "evalue" [], st', tr)
     ∧ cancelled tr = 0).
Proof.
  split.
  - destruct (cancel_iff_errorlevel demo_engine demo_parser demo_pool 7 incomplete_code
                0 kFailure "void f() {" (Returned 1) kMoreInputExpected None)
      as (st' & tr & Hex & Hcancel & _).
    + reflexivity.
    + vm_compute. apply list_elem_of_here.
    + left. discriminate.
    + exists st', tr. split; [exact Hex|]. apply Hcancel. discriminate.
  - destruct (cancel_iff_errorlevel demo_engine demo_parser demo_pool 7 refused_code
                0 kFailure "int z = ;" (Returned 0) kFailure None)
      as (st' & tr & Hex & _ & Hnone).
    + reflexivity.
    + vm_compute. apply list_elem_of_here.
    + right. discriminate.
    + exists st', tr. split; [exact Hex|]. apply Hnone. reflexivity.
Defined.



(** Not what C6 says: the shell preamble handles the submission and its
    reply has status [error] and no [ename]. *)
Lemma preamble_error_reply :
  demo_execute "!false" =
    Some (set_field "status" (JString "error") JNull, 0, [EvApply "shell" "!false"])
  ∧ field "status" (set_field "status" (JString "error") JNull) = Some (JString "error")
  ∧ field "ename" (set_field "status" (JString "error") JNull) = None.
Proof. split_and!; by vm_compute. Qed.

Lemma error_reply_placeholders_run :
  get_error_reply "ename" "evalue" [] = get_error_reply "ename" "evalue" []
  ∧ field "ename" (get_error_reply "ename" "evalue" []) = Some (JString "ename")
  ∧ field "evalue" (get_error_reply "ename" "evalue" []) = Some (JString "evalue")
  ∧ field "traceback" (get_error_reply "ename" "evalue" []) = Some (JArray []).
Proof.
  apply (error_reply_placeholders demo_engine demo_parser demo_pool 7 refused_code
           0 kFailure (get_error_reply "ename" "evalue" []) 1
           [EvSplit (c_str refused_code); EvProcess "int z = ;" (Returned 0) kFailure None]).
  - reflexivity.
  - by vm_compute.
  - by vm_compute.
Defined.

(** Not what C8 says: the text the candidate is rewritten to holds both
    tokens. *)
Lemma rewrite_candidate_keeps_markers :
  ∃ r, rewrite_candidate (chars "foo(<#int#> x<#>#)") = Some r
       ∧ occurs (chars "<#") r = true ∧ occurs (chars "#>") r = true.
Proof. exists (chars "foo(int x<#>#)"). split_and!; by vm_compute. Qed.

Example cursor_context_result_run :
  ∃ dummy text,
    substr "foo.bar(1).ba + 2" 0 (size_t_of_int 13) = Some dummy
    ∧ cursor_context "foo.bar(1).ba + 2" 13 = Match text
    ∧ (∃ before, list_ascii_of_string dummy = before ++ list_ascii_of_string text)
    ∧ match back dummy with
      | None => text = EmptyString
      | Some x => chain_char x = false → text = EmptyString
      end
    ∧ inspect_request_impl (fun text res (st : state) => (res, S st))
        "foo.bar(1).ba + 2" 13 0
      = Some ((fun text res (st : state) => (res, S st)) text Json.JNull 0).
Proof.
  apply (cursor_context_result (fun text res (st : state) => (res, S st))
           "foo.bar(1).ba + 2" 13 0).
Defined.

Example cursor_context_chain : cursor_context "foo.bar(1).ba + 2" 13 = Match "foo.bar(1).ba".
Proof. by vm_compute. Qed.

Example cursor_context_operator : cursor_context "foo.bar(1).ba + 2" 15 = Match "".
Proof. by vm_compute. Qed.

Example cursor_context_negative : cursor_context "std::vector<int>::si" (-1) = Match "std::vector<int>::si".
Proof. by vm_compute. Qed.




(** With an engine that leaves a value for a blank block the read is not
    defined. *)
Example blank_block_with_value :
  execute_request_impl eager_engine demo_parser demo_pool 7 "  " 0 kFailure = None.
Proof. by vm_compute. Qed.

End Runs.

(** * Further properties of the handlers *)

(** ** [execute_request_impl]: dispatch and the outcome of a run *)

Section ExecuteMore.
Context {St V : Type} (E : engine St V) (P : parser).

(** X1.  The first loop of [execute_request_impl] stops at a handler
    exactly when that handler matches and none before it in the pool does;
    it falls through exactly when no handler of the pool matches. *)
Theorem dispatch_first_match (pool : preamble_pool St) code :
  (∀ name pre,
     dispatch pool code = Some (name, pre) ↔
     ∃ before after,
       pool = before ++ (name, pre) :: after
       ∧ Forall (fun np => is_match np.2 code = false) before
       ∧ is_match pre code = true)
  ∧ (dispatch pool code = None ↔ Forall (fun np => is_match np.2 code = false) pool).
Proof.
  split.
  - intros name pre. split.
    + induction pool as [|[n p] pool IH]; simpl; [done|].
      destruct (is_match p code) eqn:Hp.
      * intros [= -> ->]. by exists [], pool.
      * intros (before & after & -> & Hb & Hm)%IH.
        exists ((n, p) :: before), after. split_and!; [done| |done]. by constructor.
    + intros (before & after & Hpool & Hb & Hm). by eapply dispatch_first.
  - induction pool as [|[n p] pool IH]; simpl; [done|].
    destruct (is_match p code) eqn:Hp.
    + split; [done|]. intros Hall. apply Forall_cons in Hall as [Hn _].
      simpl in Hn. congruence.
    + rewrite IH. split; [by constructor|]. by intros [_ ?]%Forall_cons.
Qed.

(** The loop shows calls of [process], diagnoses, messages and
    cancellations only. *)
Lemma run_blocks_events : ∀ blocks st cr out,
  Forall (fun e => match e with
                   | EvProcess _ _ _ _ | EvDiagnose | EvCerr _ | EvCancelContinuation
                   | EvFlushCout => True
                   | _ => False
                   end)
         (run_blocks E blocks st cr out).1.
Proof.
  assert (∀ b (r : process_result St V),
            Forall (fun e => match e with
                             | EvProcess _ _ _ _ | EvDiagnose | EvCerr _
                             | EvCancelContinuation | EvFlushCout => True
                             | _ => False
                             end) (round_events b r)) as Hround.
  { intros b r. unfold round_events. constructor; [done|].
    destruct (pr_exit r) as [n|[[] w|w|]]; simpl; repeat constructor. }
  induction blocks as [|b blocks IH]; intros st cr out; [by constructor|].
  rewrite LoopFacts.run_blocks_cons. cbv zeta.
  repeat case_bool_decide; cbn [fst]; rewrite ?Forall_app; auto.
Qed.

(** A loop that returns from inside has seen a call fail, and that call is
    the last. *)
Lemma run_blocks_return_failing : ∀ blocks st cr out evs res st',
  run_blocks E blocks st cr out = (evs, LoopReturn res st') →
  ∃ before b x c v,
    failing x c ∧ processed before ++ [b] `prefix_of` blocks ∧ cancelled before = 0 ∧
    evs = before ++ EvProcess b x c v :: exit_events x
            ++ (if bool_decide (errorlevel_of x ≠ 0%Z) then [EvCancelContinuation] else []).
Proof.
  induction blocks as [|b blocks IH]; intros st cr out evs res st'; [done|].
  rewrite LoopFacts.run_blocks_cons. cbv zeta.
  set (r := process E st b cr out).
  destruct (bool_decide (errorlevel_of (pr_exit r) ≠ 0%Z)) eqn:Hx.
  - intros [<- _]%pair_equal_spec. apply bool_decide_eq_true in Hx.
    exists [], b, (pr_exit r), (pr_compilation_result r), (pr_output r).
    split_and!; [by left|by exists blocks|done|]. by rewrite bool_decide_true.
  - destruct (bool_decide (pr_compilation_result r ≠ kSuccess)) eqn:Hc.
    + intros [<- _]%pair_equal_spec. apply bool_decide_eq_true in Hc.
      exists [], b, (pr_exit r), (pr_compilation_result r), (pr_output r).
      split_and!; [by right|by exists blocks|done|]. rewrite Hx. simpl. by rewrite app_nil_r.
    + destruct (run_blocks E blocks _ _ _) as [evs1 o] eqn:Hrun. cbn [fst snd].
      intros [<- ->]%pair_equal_spec.
      apply IH in Hrun as (before & b' & x & c & v & Hfail & Hpre & Hn & ->).
      exists (round_events b r ++ before), b', x, c, v.
      split_and!; [done| | |by rewrite <- app_assoc].
      * rewrite LoopFacts.processed_app, LoopFacts.processed_round. simpl.
        by apply prefix_cons.
      * by rewrite LoopFacts.cancelled_app, LoopFacts.cancelled_round.
Qed.

(** [std::cout] is flushed inside the loop by a [catch] clause only. *)
Lemma exit_events_flush x :
  EvFlushCout ∈ exit_events (V := V) x → ∃ e, x = Thrown e.
Proof. destruct x as [n|e]; [by intros ?%elem_of_nil|by exists e]. Qed.

Lemma run_blocks_flush : ∀ blocks st cr out,
  EvFlushCout ∈ (run_blocks E blocks st cr out).1 →
  ∃ b e c v, EvProcess b (Thrown e) c v ∈ (run_blocks E blocks st cr out).1.
Proof.
  assert (∀ b (r : process_result St V),
            EvFlushCout ∈ round_events b r →
            ∃ e, EvProcess b (Thrown e) (pr_compilation_result r) (pr_output r)
                 ∈ round_events b r) as Hround.
  { intros b r. unfold round_events. intros [[=]|Hin]%elem_of_cons.
    apply exit_events_flush in Hin as [e He]. exists e. rewrite He. by left. }
  induction blocks as [|b blocks IH]; intros st cr out; [by intros ?%elem_of_nil|].
  rewrite LoopFacts.run_blocks_cons. cbv zeta.
  repeat case_bool_decide; cbn [fst]; rewrite ?elem_of_app.
  - intros [Hin|[=]%list_elem_of_singleton]. destruct (Hround _ _ Hin) as [e He].
    eexists b, e, _, _. rewrite elem_of_app. by left.
  - intros Hin. destruct (Hround _ _ Hin) as [e He]. by eexists b, e, _, _.
  - intros [Hin|Hin].
    + destruct (Hround _ _ Hin) as [e He]. eexists b, e, _, _. rewrite elem_of_app. by left.
    + destruct (IH _ _ _ Hin) as (b' & e & c & v & He).
      exists b', e, c, v. rewrite elem_of_app. by right.
Qed.

(** A round does not end with a flush of [std::cout]. *)
Lemma last_round b x c (v : option V) l :
  last (l ++ EvProcess b x c v :: exit_events x) ≠ Some EvFlushCout.
Proof.
  rewrite last_app.
  destruct x as [n|[[] w|w|]]; simpl; done.
Qed.

(** X2.  A submission that no preamble handles ends in one of two ways.
    Either the reply is the one with status [ok] alone: then every block
    has been given to [process], nothing was cancelled, at most one
    execution result was published and the flush of the standard output is
    the last thing done.  Or the reply is the error reply: then a call of
    [process] failed, the blocks given to [process] are a part of the
    blocks from the first on, no execution result was published and at
    most one continuation was cancelled; the run does not end with a flush
    of the standard output, which is flushed on this path by the writes of
    a [catch] clause only, so not at all when no call threw. *)
Theorem execute_outcome pool execution_counter code st cr reply st' tr :
  dispatch pool code = None →
  execute_request_impl E P pool execution_counter code st cr = Some (reply, st', tr) →
  (reply = set_field "status" (JString "ok") JNull
   ∧ processed tr = split_from_includes P (c_str code)
   ∧ cancelled tr = 0 ∧ length (published tr) ≤ 1
   ∧ last tr = Some EvFlushCout)
  ∨ (reply = get_error_reply "ename" "evalue" []
     ∧ processed tr ≠ []
     ∧ processed tr `prefix_of` split_from_includes P (c_str code)
     ∧ published tr = [] ∧ cancelled tr ≤ 1
     ∧ last tr ≠ Some EvFlushCout
     ∧ ((∀ b e c v, EvProcess b (Thrown e) c v ∉ tr) → EvFlushCout ∉ tr)).
Proof.
  intros Hd Hex.
  destruct (run_blocks E (split_from_includes P (c_str code)) st cr None)
    as [evs [st1 cr1 out|res st1]] eqn:Hrun.
  - left. rewrite (execute_done _ _ _ _ _ _ _ _ _ _ _ Hd Hrun) in Hex.
    apply LoopFacts.run_blocks_done in Hrun as (Hp & Hq & Hn).
    destruct (shall_publish _ _ _) as [to_publish|]; [|done].
    cbv beta iota delta [mbind option_bind] in Hex.
    apply (inj Some) in Hex. apply pair_equal_spec in Hex as [[<- _]%pair_equal_spec <-].
    change (EvSplit (c_str code) :: evs) with ([EvSplit (c_str code)] ++ evs).
    rewrite !LoopFacts.processed_app, !LoopFacts.cancelled_app,
      !LoopFacts.published_app, Hp, Hq, Hn.
    split_and!; [done| | | |by rewrite !app_assoc, last_snoc];
      destruct to_publish; simpl; rewrite ?app_nil_r; done || lia.
  - right. rewrite (execute_return _ _ _ _ _ _ _ _ _ _ Hd Hrun) in Hex.
    injection Hex as <- _ <-.
    pose proof (run_blocks_flush (split_from_includes P (c_str code)) st cr None) as Hflush.
    rewrite Hrun in Hflush. simpl in Hflush.
    pose proof Hrun as Hret. apply LoopFacts.run_blocks_return in Hret as [-> Hq].
    apply run_blocks_return_failing in Hrun
      as (before & b & x & c & v & Hfail & Hpre & Hn & Hevs).
    split; [done|].
    set (tail := exit_events x
                   ++ (if bool_decide (errorlevel_of x ≠ 0%Z)
                       then [EvCancelContinuation] else [])) in *.
    assert (processed tail = [] ∧ cancelled tail ≤ 1) as [Hpt Hct].
    { unfold tail. rewrite LoopFacts.processed_app, LoopFacts.cancelled_app,
        LoopFacts.processed_exit_events, LoopFacts.cancelled_exit_events.
      case_bool_decide; (split; [done|unfold cancelled; simpl; lia]). }
    assert (EvSplit (c_str code) :: evs
            = [EvSplit (c_str code)] ++ before ++ [EvProcess b x c v] ++ tail) as Htr
      by (by rewrite Hevs).
    split_and!.
    + rewrite Htr, !LoopFacts.processed_app, Hpt. by destruct (processed before).
    + rewrite Htr, !LoopFacts.processed_app, Hpt, app_nil_r. done.
    + exact Hq.
    + rewrite Htr, !LoopFacts.cancelled_app, Hn.
      change (cancelled [EvSplit (c_str code)]) with 0.
      change (cancelled [EvProcess b x c v]) with 0. lia.
    + rewrite Hevs. unfold tail. case_bool_decide.
      * rewrite !app_comm_cons, !app_assoc, last_snoc. done.
      * rewrite app_nil_r, app_comm_cons. apply last_round.
    + intros Hno [[=]|Hin]%elem_of_cons.
      destruct (Hflush Hin) as (b' & e & c' & v' & He).
      apply (Hno b' e c' v'). by right.
Qed.

End ExecuteMore.

(** ** [execute_request_impl]: edges *)

Section ExecuteEdges.
Context {St V : Type} (E : engine St V) (P : parser).

(** X3.  When the splitter gives no block for a submission that no
    preamble handles, [execute_request_impl] returns the reply [ok] with
    the state it was given: the engine is not called, nothing is published,
    and the read of the last block is not reached, the value being absent. *)
Theorem execute_no_block pool execution_counter code st cr :
  dispatch pool code = None →
  split_from_includes P (c_str code) = [] →
  execute_request_impl E P pool execution_counter code st cr =
    Some (set_field "status" (JString "ok") JNull, st, [EvSplit (c_str code); EvFlushCout]).
Proof. intros Hd Hs. unfold execute_request_impl. by rewrite Hd, Hs. Qed.

(** X4.  The local variable [compilation_result] is not initialised.  With
    an engine whose [process] does not read the variable before it writes
    it, what the variable holds at first has no effect on the reply, the
    state or the events of [execute_request_impl]. *)
Theorem execute_uninitialised_result pool execution_counter code st cr cr' :
  (∀ st b c c' o, process E st b c o = process E st b c' o) →
  execute_request_impl E P pool execution_counter code st cr
  = execute_request_impl E P pool execution_counter code st cr'.
Proof.
  intros HE. unfold execute_request_impl.
  destruct (dispatch pool code) as [[name pre]|]; [done|].
  destruct (split_from_includes P (c_str code)) as [|b blocks]; [done|].
  rewrite !LoopFacts.run_blocks_cons. cbv zeta. by rewrite (HE st b cr cr').
Qed.

Lemma c_str_app_nul s t : c_str (s +:+ String (ascii_of_nat 0) t) = c_str s.
Proof.
  induction s as [|a s IH]; simpl; [done|].
  destruct (Ascii.eqb a _); [done|]. by rewrite IH.
Qed.

Lemma c_str_no_nul s : ascii_of_nat 0 ∉ list_ascii_of_string s → c_str s = s.
Proof.
  induction s as [|a s IH]; simpl; [done|].
  intros [Hne Hs]%not_elem_of_cons.
  destruct (Ascii.eqb_spec a (ascii_of_nat 0)); [congruence|]. by rewrite IH.
Qed.

(** X5.  The code goes to the splitter through [c_str()]: what follows the
    first null character of a submission is seen by the preambles only.
    When no preamble takes the code with or without such an end, the two
    submissions have the same reply, state and events. *)
Theorem execute_after_nul pool execution_counter code rest st cr :
  dispatch pool code = None →
  dispatch pool (code +:+ String (ascii_of_nat 0) rest) = None →
  execute_request_impl E P pool execution_counter
    (code +:+ String (ascii_of_nat 0) rest) st cr
  = execute_request_impl E P pool execution_counter code st cr.
Proof.
  intros Hd Hd'. unfold execute_request_impl. by rewrite Hd, Hd', c_str_app_nul.
Qed.

End ExecuteEdges.

(** ** [get_error_reply] and the redirection *)

Section ReplyAndStreams.
Import Streams.

(** X6.  The reply of [get_error_reply] holds what it was given: status
    [error], the name, the value and the traceback, and no other entry. *)
Theorem get_error_reply_fields ename evalue trace_back :
  field "status" (get_error_reply ename evalue trace_back) = Some (JString "error")
  ∧ field "ename" (get_error_reply ename evalue trace_back) = Some (JString ename)
  ∧ field "evalue" (get_error_reply ename evalue trace_back) = Some (JString evalue)
  ∧ field "traceback" (get_error_reply ename evalue trace_back) = Some (JArray trace_back)
  ∧ ∀ key, key ∉ ["status"; "ename"; "evalue"; "traceback"]%string →
           field key (get_error_reply ename evalue trace_back) = None.
Proof.
  unfold get_error_reply, field, set_field. cbv zeta.
  split_and!; try by simplify_map_eq.
  intros key Hkey. rewrite !not_elem_of_cons in Hkey.
  destruct Hkey as (? & ? & ? & ? & _). by simplify_map_eq.
Qed.

(** X7.  [redirect_output] called a second time saves the two buffers of
    the interpreter in place of the former targets: a [restore_output]
    after it leaves the streams on those buffers, and the former targets
    are in neither the members nor the streams. *)
Theorem redirect_twice_loses_targets (i : saved) (s : streams) :
  let once := redirect_output i s in
  let twice := redirect_output once.1 once.2 in
  twice.1 = Saved CoutBuffer CerrBuffer
  ∧ twice.2 = Streams CoutBuffer CerrBuffer
  ∧ restore_output twice.1 twice.2 = Streams CoutBuffer CerrBuffer.
Proof. by destruct s, i. Qed.

(** X8.  [restore_output] sets the streams to what the members hold,
    whatever the streams write to: done twice it is as done once, and
    before any [redirect_output] it sets both streams to the null pointer
    the constructor gave the members. *)
Theorem restore_output_from_members (i : saved) (s : streams) :
  restore_output i s = Streams (p_cout_strbuf i) (p_cerr_strbuf i)
  ∧ restore_output i (restore_output i s) = restore_output i s
  ∧ restore_output initial s = Streams Nullptr Nullptr.
Proof. by destruct s, i. Qed.

End ReplyAndStreams.

(** ** [inspect_request_impl]: what the context is *)

Section InspectMore.
Import Regex Language.

Lemma one_char_sound p r i s c k res :
  (∀ x, p x = true → lang r [x]) →
  one_char p i s c k = Some res →
  ∃ t s' c', s = t ++ s' ∧ k (i + length t) s' c' = Some res ∧ lang r t.
Proof.
  intros Hp. destruct s as [|x s']; simpl; [done|].
  destruct (p x) eqn:E; [|done]. intros H.
  exists [x], s', c. simpl. rewrite Nat.add_1_r. auto.
Qed.

Lemma repeat_loop_sound r1 k :
  sound r1 →
  ∀ fuel i s c res,
    repeat_loop (fun i' s' c' k' => m r1 i' s' (clear_captures (groups r1) c') k')
                k fuel i s c = Some res →
    ∃ t s' c', s = t ++ s' ∧ k (i + length t) s' c' = Some res ∧ lang (Star r1) t.
Proof.
  intros Hbody. induction fuel as [|fuel IH]; intros i s c res; simpl.
  - intros H. exists [], s, c. rewrite Nat.add_0_r. split_and!; [done|done|constructor].
  - destruct (m r1 i s _ _) as [res'|] eqn:E.
    + intros [= ->]. apply Hbody in E as (t1 & s1 & c1 & -> & Hk & He).
      destruct (Nat.eqb (i + length t1) i); [done|].
      apply IH in Hk as (t2 & s2 & c2 & -> & Hk & He2).
      exists (t1 ++ t2), s2, c2. rewrite length_app, Nat.add_assoc, <- app_assoc.
      split_and!; [done|done|by constructor].
    + intros H. exists [], s, c. rewrite Nat.add_0_r. split_and!; [done|done|constructor].
Qed.

(** The matcher is sound for the language of the pattern. *)
Lemma m_sound r : sound r.
Proof.
  induction r as [| a | | | cs | r1 IH1 r2 IH2 | r1 IH1 r2 IH2
                 | r1 IH1 | r1 IH1 | r1 IH1 | n r1 IH1 | ];
    intros i s c k res; simpl.
  - intros H. exists [], s, c. rewrite Nat.add_0_r. split_and!; [done|done|constructor].
  - apply one_char_sound. intros x ->%Ascii.eqb_eq. constructor.
  - apply one_char_sound. intros x Hx%negb_true_iff. by constructor.
  - apply one_char_sound. intros x Hx. by constructor.
  - apply one_char_sound. intros x Hx%negb_true_iff. by constructor.
  - intros H. apply IH1 in H as (t1 & s1 & c1 & -> & H & He1).
    apply IH2 in H as (t2 & s2 & c2 & -> & H & He2).
    exists (t1 ++ t2), s2, c2. rewrite length_app, Nat.add_assoc, <- app_assoc.
    split_and!; [done|done|by constructor].
  - destruct (m r1 i s c k) as [res'|] eqn:E.
    + intros [= ->]. apply IH1 in E as (t & s' & c' & -> & H & He).
      exists t, s', c'. split_and!; [done|done|by apply L_alt_l].
    + intros H. apply IH2 in H as (t & s' & c' & -> & H & He).
      exists t, s', c'. split_and!; [done|done|by apply L_alt_r].
  - by apply repeat_loop_sound.
  - intros H. apply IH1 in H as (t1 & s1 & c1 & -> & H & He1).
    apply (repeat_loop_sound r1 k IH1) in H as (t2 & s2 & c2 & -> & H & He2).
    exists (t1 ++ t2), s2, c2. rewrite length_app, Nat.add_assoc, <- app_assoc.
    split_and!; [done|done|by constructor].
  - destruct (m r1 i s _ _) as [res'|] eqn:E.
    + intros [= ->]. apply IH1 in E as (t & s' & c' & -> & H & He).
      destruct (Nat.eqb (i + length t) i); [done|].
      exists t, s', c'. split_and!; [done|done|by apply L_opt_some].
    + intros H. exists [], s, c. rewrite Nat.add_0_r. split_and!; [done|done|constructor].
  - intros H. apply IH1 in H as (t & s' & c' & -> & H & He).
    exists t, s', (set_capture n (i, i + length t) c'). split_and!; [done|done|by constructor].
  - destruct s; [|done]. intros H. exists [], [], c. rewrite Nat.add_0_r.
    split_and!; [done|done|constructor].
Qed.

Lemma closer_chain x : closer x = true → chain_char x = true.
Proof. destruct x as [[] [] [] [] [] [] [] []]; by vm_compute. Qed.

Lemma word_chain x : is_word_char x = true → chain_char x = true.
Proof. unfold chain_char. by intros ->. Qed.

Lemma word_not_closer x : is_word_char x = true → closer x = false.
Proof. destruct x as [[] [] [] [] [] [] [] []]; by vm_compute. Qed.

Lemma closed_app t1 t2 : closed t1 → closed t2 → closed (t1 ++ t2).
Proof.
  intros H1 H2 u c w Heq Hc.
  apply app_eq_inv in Heq as [(k & -> & Hw)|(k & -> & Ht2)].
  - destruct k as [|c' k]; simpl in Hw.
    + rewrite app_nil_r in H1. by apply (H2 [] c w).
    + injection Hw as <- ->.
      destruct (H1 u c k eq_refl Hc) as (x & Hx & Hcl).
      exists x. split; [|done]. apply elem_of_app. by left.
  - by apply (H2 k c w).
Qed.

Lemma closed_chain t : Forall (fun x => chain_char x = true) t → closed t.
Proof.
  intros Ht u c w -> Hc. apply Forall_app in Ht as [_ Ht].
  apply Forall_cons in Ht as [Hc' _]. congruence.
Qed.

Lemma closed_bracket t x : closer x = true → closed (t ++ [x]).
Proof.
  intros Hx u c w Heq Hc.
  destruct w as [|y w _] using rev_ind.
  - apply app_inj_tail in Heq as [_ <-]. apply closer_chain in Hx. congruence.
  - rewrite app_comm_cons, app_assoc in Heq. apply app_inj_tail in Heq as [_ <-].
    exists x. split; [|done]. apply elem_of_app. right. by apply list_elem_of_singleton.
Qed.

Lemma lang_star_closed r t :
  (∀ t1, lang r t1 → closed t1) → lang (Star r) t → closed t.
Proof.
  intros Hr H. remember (Star r) as sr eqn:Hsr.
  induction H; try discriminate; injection Hsr as ->.
  - by intros [|??] ???.
  - apply closed_app; auto.
Qed.

Lemma lang_star_word t : lang (Star WordChar) t → Forall (fun x => chain_char x = true) t.
Proof.
  intros H. remember (Star WordChar) as sr eqn:Hsr.
  induction H; try discriminate; injection Hsr as ->; [done|].
  apply Forall_app. split; [|auto].
  inversion H; subst. constructor; [by apply word_chain|done].
Qed.

Ltac invert_lang :=
  repeat match goal with
         | H : lang (Seq _ _) _ |- _ => inversion H; subst; clear H
         | H : lang (Alt _ _) _ |- _ => inversion H; subst; clear H
         | H : lang (Opt _) _ |- _ => inversion H; subst; clear H
         | H : lang (Group _ _) _ |- _ => inversion H; subst; clear H
         | H : lang (Char _) _ |- _ => inversion H; subst; clear H
         end.

Ltac solve_closed :=
  first [ by (intros [|??] ???)
        | apply closed_chain; by apply lang_star_word
        | apply closed_chain; by repeat constructor
        | rewrite app_assoc; by apply closed_bracket
        | apply closed_app; solve_closed ].

(** In a token chain every character no chain ends with stands inside a
    pair of brackets. *)
Lemma lang_chain_closed t : lang re_chain t → closed t.
Proof.
  apply lang_star_closed. clear t. intros t H. unfold re_exp in H.
  invert_lang; solve_closed.
Qed.

Lemma star_word_some : ∀ s i c k,
  Forall (fun x => is_word_char x = true) s →
  (∀ c', is_Some (k (i + length s) [] c')) →
  is_Some (m (Star WordChar) i s c k).
Proof.
  induction s as [|x s IH]; intros i c k Hs Hk.
  - simpl. rewrite <- (Nat.add_0_r i). apply Hk.
  - apply Forall_cons in Hs as [Hx Hs].
    destruct (IH (S i) (clear_captures [] c) k Hs) as [res Hres].
    { intros c'. rewrite Nat.add_succ_comm. apply Hk. }
    cbn -[Nat.eqb] in Hres |- *. rewrite Hx.
    destruct (Nat.eqb_spec (S i) i) as [|_]; [lia|].
    rewrite Hres. by eexists.
Qed.

Lemma exp_dot_word_some s i c k :
  Forall (fun x => is_word_char x = true) s →
  (∀ c', is_Some (k (i + length s) [] c')) →
  is_Some (m (Seq re_exp (Opt (Char "."))) i s c k).
Proof.
  intros Hs Hk.
  change (m (Seq re_exp (Opt (Char "."))) i s c k) with
    (m (Star WordChar) i s c
       (fun i1 s1 c1 =>
          m (Opt (Alt (Seq (Char ":") (Char ":"))
                 (Alt (Seq (Char "<") (Seq (Star AnyChar) (Char ">")))
                 (Alt (Seq (Char "(") (Seq (Star AnyChar) (Char ")")))
                      (Seq (Char "[") (Seq (Star AnyChar) (Char "]")))))))
            i1 s1 c1 (fun i2 s2 c2 => m (Opt (Char ".")) i2 s2 c2 k))).
  apply star_word_some; [done|]. intros c'. simpl. apply Hk.
Qed.

(** A word is a token chain. *)
Lemma chain_word_some s i :
  s ≠ [] → Forall (fun x => is_word_char x = true) s →
  is_Some (match_at false re_method i s).
Proof.
  intros Hne Hs.
  assert (∀ k : cont, (∀ c', is_Some (k (i + length s) [] c')) →
                      is_Some (m re_chain i s [] k)) as Hchain.
  { intros k Hk. destruct s as [|x s]; [done|].
    set (body := fun i' s' c' (k' : cont) =>
                   m (Group 1 (Seq re_exp (Opt (Char ".")))) i' s'
                     (clear_captures (groups (Group 1 (Seq re_exp (Opt (Char "."))))) c') k').
    change (m re_chain i (x :: s) [] k) with
      (match body i (x :: s) []
               (fun i' s' c' => if Nat.eqb i' i then None
                                else repeat_loop body k (length s) i' s' c') with
       | Some res => Some res
       | None => k i (x :: s) []
       end).
    assert (is_Some (body i (x :: s) []
              (fun i' s' c' => if Nat.eqb i' i then None
                               else repeat_loop body k (length s) i' s' c')))
      as [res ->]; [|by eexists].
    unfold body at 1.
    change (m (Group 1 ?r) ?i0 ?s0 ?c0 ?k0) with
      (m r i0 s0 c0 (fun i' s' c' => k0 i' s' (set_capture 1 (i0, i') c'))).
    apply exp_dot_word_some; [done|]. intros c'.
    destruct (Nat.eqb_spec (i + length (x :: s)) i) as [Heq|_]; [simpl in Heq; lia|].
    unfold body. rewrite RegexFacts.repeat_loop_nil. apply Hk. }
  unfold match_at.
  change (m re_method i s [] ?k) with
    (m re_chain i s [] (fun i' s' c' => m EndOfInput i' s' c' k)).
  destruct (Hchain (fun i' s' c' => m EndOfInput i' s' c'
      (λ (i'0 : nat) (_ : list ascii) (c'0 : captures),
         if false && (i'0 =? i) then None else Some (i'0, c'0)))) as [[e c] ->]; [|by eexists].
  intros c'. simpl. by eexists.
Qed.

(** No token chain begins before a separator and ends with the word after
    it. *)
Lemma match_at_separator before c w i :
  last before = Some c → chain_char c = false →
  Forall (fun x => is_word_char x = true) w →
  match_at false re_method i (before ++ w) = None.
Proof.
  intros Hlast Hc Hw. destruct (match_at _ _ _ _) as [mt|] eqn:E; [|done].
  unfold match_at in E.
  change (m re_method i (before ++ w) [] ?k) with
    (m re_chain i (before ++ w) [] (fun i' s' c' => m EndOfInput i' s' c' k)) in E.
  destruct (m re_chain _ _ _ _) as [res|] eqn:Em; [|done].
  apply m_sound in Em as (t & s' & c' & Hs & Hk & Hlang).
  destruct s'; [|done]. rewrite app_nil_r in Hs. subst t.
  apply last_Some in Hlast as [u ->]. rewrite <- app_assoc in Hlang.
  destruct (lang_chain_closed _ Hlang u c w eq_refl Hc) as (x & Hx & Hcl).
  eapply Forall_forall in Hw; [|exact Hx]. apply word_not_closer in Hw. congruence.
Qed.

Lemma search_identifier w : 
  w ≠ [] → Forall (fun x => is_word_char x = true) w →
  ∀ before i,
    match last before with Some c => chain_char c = false | None => True end →
    ∃ mt, search_from re_method i (before ++ w) = Some mt
          ∧ m_begin mt = i + length before
          ∧ m_end mt = i + length (before ++ w).
Proof.
  intros Hne Hw. induction before as [|a before IH]; intros i Hlast.
  - simpl app. destruct (chain_word_some w i Hne Hw) as [mt Hmt].
    exists mt. destruct w as [|x w]; [done|]. cbn [search_from]. rewrite Hmt.
    apply match_at_re_method in Hmt as (-> & -> & _). split_and!; [done|simpl; lia|done].
  - destruct (last (a :: before)) as [c|] eqn:Hc; [|by apply last_None in Hc].
    rewrite <- app_comm_cons. cbn [search_from]. rewrite app_comm_cons.
    rewrite (match_at_separator _ c) by done. 
    destruct (IH (S i)) as (mt & -> & Hb & He).
    { destruct before as [|b before]; [done|]. by rewrite last_cons_cons in Hc; rewrite Hc. }
    exists mt. split_and!; [done|simpl; lia|simpl in *; lia].
Qed.

Lemma chars_app s1 s2 :
  list_ascii_of_string (s1 +:+ s2) = list_ascii_of_string s1 ++ list_ascii_of_string s2.
Proof. induction s1 as [|a s1 IH]; simpl; [done|]. by rewrite IH. Qed.

Lemma length_chars s : length (list_ascii_of_string s) = String.length s.
Proof. induction s as [|a s IH]; simpl; [done|]. by rewrite IH. Qed.

Lemma substr_zero code count :
  substr code 0 count =
    Some (string_of_list_ascii
            (take (N.to_nat (N.min count (N.of_nat (String.length code))))
                  (list_ascii_of_string code))).
Proof.
  unfold substr. cbv zeta. rewrite (proj2 (N.ltb_ge _ 0)) by lia.
  by rewrite N.sub_0_r.
Qed.

Lemma size_t_of_nat n : (Z.of_nat n < 2 ^ 64)%Z → size_t_of_int (Z.of_nat n) = N.of_nat n.
Proof. intros Hn. unfold size_t_of_int. rewrite Z.mod_small by lia. lia. Qed.

Lemma cursor_context_before s1 s2 :
  (Z.of_nat (String.length s1) < 2 ^ 64)%Z →
  cursor_context (s1 +:+ s2) (Z.of_nat (String.length s1))
  = cursor_context s1 (Z.of_nat (String.length s1)).
Proof.
  intros Hlen. unfold cursor_context. rewrite !substr_zero, size_t_of_nat by done.
  rewrite chars_app.
  replace (N.to_nat (N.min _ (N.of_nat (String.length (s1 +:+ s2)))))
    with (length (list_ascii_of_string s1)).
  2: { rewrite <- !length_chars, chars_app, length_app. lia. }
  replace (N.to_nat (N.min _ (N.of_nat (String.length s1))))
    with (length (list_ascii_of_string s1)).
  2: { rewrite <- !length_chars. lia. }
  by rewrite take_app_length, take_ge.
Qed.

(** X10.  The context depends on the text before the cursor only: what
    follows the cursor in the code has no effect. *)
Theorem cursor_context_prefix s1 s2 :
  (Z.of_nat (String.length s1) < 2 ^ 64)%Z →
  cursor_context (s1 +:+ s2) (Z.of_nat (String.length s1))
  = cursor_context s1 (Z.of_nat (String.length s1)).
Proof. apply cursor_context_before. Qed.

(** X9.  A cursor position that is negative or lies beyond the end of the
    code gives the context of the whole code: the [int] becomes a
    [std::size_t], a negative one a very large one, and [substr] stops at
    the end of the code. *)
Theorem cursor_context_whole code cursor_pos :
  (cursor_pos < 0 ∨ Z.of_nat (String.length code) ≤ cursor_pos)%Z →
  (- 2 ^ 31 ≤ cursor_pos < 2 ^ 31)%Z →
  (Z.of_nat (String.length code) < 2 ^ 63)%Z →
  cursor_context code cursor_pos = cursor_context code (Z.of_nat (String.length code)).
Proof.
  intros Hpos Hint Hlen. unfold cursor_context.
  rewrite !substr_zero, (size_t_of_nat (String.length code)) by lia.
  assert (N.of_nat (String.length code) ≤ size_t_of_int cursor_pos)%N as Hle.
  { unfold size_t_of_int. destruct Hpos as [Hneg|Hbig].
    - replace (cursor_pos mod 2 ^ 64)%Z with (cursor_pos + 2 ^ 64)%Z; [lia|].
      apply (Z.mod_unique _ _ (-1)); lia.
    - rewrite Z.mod_small by lia. lia. }
  by rewrite N.min_r, N.min_id by done.
Qed.

(** X11.  When the text before the cursor ends with a word (letters,
    digits, underscores) that stands at the beginning of the code or after
    a character no token chain ends with (a space, an operator, an opening
    bracket), the context is that word. *)
Theorem cursor_context_identifier before word rest :
  word ≠ EmptyString →
  Forall (fun x => is_word_char x = true) (list_ascii_of_string word) →
  match back before with Some c => chain_char c = false | None => True end →
  (Z.of_nat (String.length (before +:+ word)) < 2 ^ 64)%Z →
  cursor_context ((before +:+ word) +:+ rest) (Z.of_nat (String.length (before +:+ word)))
  = Match word.
Proof.
  intros Hne Hw Hback Hlen. rewrite cursor_context_before by done.
  unfold cursor_context. rewrite substr_zero, size_t_of_nat by done.
  rewrite N.min_id, Nat2N.id, <- length_chars, firstn_all.
  rewrite list_ascii_of_string_of_list_ascii, chars_app. unfold regex_search.
  destruct (search_identifier (list_ascii_of_string word)) with
    (before := list_ascii_of_string before) (i := 0) as (mt & -> & Hb & He); try done.
  { by destruct word. }
  unfold matched_text, sub. rewrite Hb, He, length_app. simpl.
  replace (length (list_ascii_of_string before) + length (list_ascii_of_string word)
           - length (list_ascii_of_string before))
    with (length (list_ascii_of_string word)) by lia.
  by rewrite drop_app_length, firstn_all, string_of_list_ascii_of_string.
Qed.

End InspectMore.

(** ** [complete_request_impl], [configure_impl], [kernel_info_request_impl] *)

Section CompletionMore.
Import Regex Complete Requests Language.

(** A text of the language of a pattern holds the characters the pattern
    needs. *)
Lemma lang_needs a r t : lang r t → needs a r = true → a ∈ t.
Proof.
  induction 1 as [| b | | | | r1 r2 t1 t2 _ IH1 _ IH2 | r1 r2 t _ IH | r1 r2 t _ IH | |
                 | r t1 t2 _ IH1 _ _ | | | n r t _ IH | ]; simpl; try done.
  - intros ->%Ascii.eqb_eq. by apply list_elem_of_singleton.
  - intros [?|?]%orb_true_iff; apply elem_of_app; auto.
  - intros [? ?]%andb_true_iff. auto.
  - intros [? ?]%andb_true_iff. auto.
  - intros ?. apply elem_of_app. auto.
Qed.

Lemma match_at_needs a not_null r i s mt :
  needs a r = true → match_at not_null r i s = Some mt → a ∈ s.
Proof.
  intros Hn. unfold match_at. destruct (m r i s [] _) as [res|] eqn:E; [|done].
  intros _. apply m_sound in E as (t & s' & c' & -> & _ & Hl).
  apply elem_of_app. left. by eapply lang_needs.
Qed.

Lemma search_from_needs a r : needs a r = true →
  ∀ s i, a ∉ s → search_from r i s = None.
Proof.
  intros Hn. induction s as [|x s IH]; intros i Ha; cbn [search_from];
    (destruct (match_at false r i _) as [mt|] eqn:E;
     [by apply (match_at_needs a) in E|]); [done|].
  apply IH. by apply not_elem_of_cons in Ha as [_ ?].
Qed.

Lemma regex_replace_untouched a input r fmt :
  needs a r = true → a ∉ input → regex_replace input r fmt = Some input.
Proof.
  intros Hn Ha. unfold regex_replace.
  replace (2 * length input + 2) with (S (2 * length input + 1)) by lia.
  cbn [replace_loop next_match]. rewrite drop_0.
  by rewrite (search_from_needs a).
Qed.

(** X12.  A candidate without the character [#] is left as it is by the
    four replacements: each of the patterns needs that character. *)
Theorem rewrite_candidate_plain r :
  "#"%char ∉ r → rewrite_candidate r = Some r.
Proof.
  intros Hr. unfold rewrite_candidate.
  rewrite (regex_replace_untouched "#") by done. simpl.
  rewrite (regex_replace_untouched "#") by done. simpl.
  rewrite (regex_replace_untouched "#") by done. simpl.
  by rewrite (regex_replace_untouched "#").
Qed.

Lemma rewrite_candidate_total r : is_Some (rewrite_candidate r).
Proof.
  unfold rewrite_candidate.
  destruct (RegexFacts.regex_replace_total r re_definition []) as [r1 ->]. simpl.
  destruct (RegexFacts.regex_replace_total r1 re_variable_name [Sub 1; Sub 3]) as [r2 ->]. simpl.
  destruct (RegexFacts.regex_replace_total r2 re_trailing_space [Sub 1]) as [r3 ->]. simpl.
  apply RegexFacts.regex_replace_total.
Qed.

Lemma rewrite_candidates_some (result : list string) :
  ∃ matches,
    rewrite_candidates result = Some matches
    ∧ length matches = length result
    ∧ ∀ i r, result !! i = Some r →
        ∃ r', matches !! i = Some r' ∧ rewrite_candidate (chars r) = Some (chars r').
Proof.
  assert (is_Some (rewrite_candidates result)) as [matches Hm].
  { apply mapM_is_Some, Forall_forall. intros r _. simpl.
    destruct (rewrite_candidate_total (chars r)) as [r' ->]. by eexists. }
  exists matches. split; [done|]. apply mapM_Some in Hm.
  split; [symmetry; by eapply Forall2_length|].
  intros i r Hr. destruct (Forall2_lookup_l _ _ _ _ _ Hm Hr) as (r' & Hr' & Hf).
  exists r'. split; [done|].
  destruct (rewrite_candidate (chars r)) as [t|]; [|done]. simpl in Hf.
  injection Hf as <-. unfold chars. by rewrite list_ascii_of_string_of_list_ascii.
Qed.

(** X13.  The loop over the candidates always ends, replaces every
    candidate by its rewriting and keeps their number and order. *)
Theorem rewrite_candidates_total (result : list string) :
  ∃ matches,
    rewrite_candidates result = Some matches
    ∧ length matches = length result
    ∧ ∀ i r, result !! i = Some r →
        ∃ r', matches !! i = Some r' ∧ rewrite_candidate (chars r) = Some (chars r').
Proof. apply rewrite_candidates_some. Qed.

End CompletionMore.

Import Regex Complete Requests Language.

Section CompleteMore.
Context {St : Type} (C : completer St).

Lemma complete_reply_word code cursor_pos st word :
  last (split_line C code delims (size_t_of_int cursor_pos)) = Some word →
  ∃ matches kernel_res,
    complete_request_impl C code cursor_pos st
      = Some (kernel_res, (codeComplete C st (c_str code) (size_t_of_int cursor_pos)).2)
    ∧ rewrite_candidates (codeComplete C st (c_str code) (size_t_of_int cursor_pos)).1.2
      = Some matches
    ∧ kernel_res !! "status" = Some (XJson (JString "ok"))
    ∧ kernel_res !! "matches" = Some (XJson (JArray matches))
    ∧ kernel_res !! "cursor_start"
      = Some (XNumber (cursor_start_of cursor_pos (c_str word)))
    ∧ kernel_res !! "cursor_end" = Some (XNumber cursor_pos)
    ∧ kernel_res !! "metadata" = Some (XJson object)
    ∧ dom kernel_res
      = list_to_set ["matches"; "cursor_start"; "cursor_end"; "metadata"; "status"]%string.
Proof.
  unfold complete_request_impl. intros ->. simpl.
  destruct (codeComplete C st (c_str code) (size_t_of_int cursor_pos))
    as [[cr result] st'].
  destruct (rewrite_candidates_some result) as (matches & Hm & _).
  rewrite Hm. simpl.
  eexists matches, _. split; [reflexivity|]. split; [exact Hm|].
  split_and!; by simplify_map_eq.
Qed.

(** X14.  [complete_request_impl] reads the last word [split_line] gives
    without a test: with no word the behaviour is undefined.  With a word
    it returns a reply of exactly five entries, whatever the result of
    [codeComplete]: status [ok], the rewritten candidates of the engine as
    [matches], [cursor_end] equal to the cursor position, [cursor_start],
    and an empty [metadata]; the state is the one [codeComplete] left. *)
Theorem complete_reply code cursor_pos st :
  let text := split_line C code delims (size_t_of_int cursor_pos) in
  let answer := codeComplete C st (c_str code) (size_t_of_int cursor_pos) in
  (text = [] → complete_request_impl C code cursor_pos st = None)
  ∧ (∀ word, last text = Some word →
       ∃ matches kernel_res,
         complete_request_impl C code cursor_pos st = Some (kernel_res, answer.2)
         ∧ rewrite_candidates answer.1.2 = Some matches
         ∧ kernel_res !! "status" = Some (XJson (JString "ok"))
         ∧ kernel_res !! "matches" = Some (XJson (JArray matches))
         ∧ kernel_res !! "cursor_start"
           = Some (XNumber (cursor_start_of cursor_pos (c_str word)))
         ∧ kernel_res !! "cursor_end" = Some (XNumber cursor_pos)
         ∧ kernel_res !! "metadata" = Some (XJson object)
         ∧ dom kernel_res
           = list_to_set ["matches"; "cursor_start"; "cursor_end"; "metadata"; "status"]%string).
Proof.
  cbv zeta. split.
  - unfold complete_request_impl. by intros ->.
  - intros word Hword. by apply complete_reply_word.
Qed.

(** X15.  [cursor_start] is computed in [std::size_t]: it is never
    negative.  It is the cursor position less the length of the word when
    the word is not longer than the position; when the word is longer (or
    the position negative) it wraps round to 2^64 plus the difference. *)
Theorem complete_cursor_start code cursor_pos st word :
  last (split_line C code delims (size_t_of_int cursor_pos)) = Some word →
  ∃ kernel_res st' start,
    complete_request_impl C code cursor_pos st = Some (kernel_res, st')
    ∧ kernel_res !! "cursor_start" = Some (XNumber start)
    ∧ (0 ≤ start < 2 ^ 64)%Z
    ∧ (Z.of_nat (String.length (c_str word)) ≤ cursor_pos < 2 ^ 64 →
       start + Z.of_nat (String.length (c_str word)) = cursor_pos)%Z
    ∧ (cursor_pos < Z.of_nat (String.length (c_str word)) ≤ cursor_pos + 2 ^ 64 →
       start = 2 ^ 64 + cursor_pos - Z.of_nat (String.length (c_str word)))%Z.
Proof.
  intros Hword.
  destruct (complete_reply_word code cursor_pos st word Hword)
    as (matches & kernel_res & Hex & _ & _ & _ & Hstart & _).
  eexists kernel_res, _, _. split; [exact Hex|]. split; [exact Hstart|].
  unfold cursor_start_of. split_and!.
  - apply Z.mod_pos_bound. lia.
  - apply Z.mod_pos_bound. lia.
  - intros H. rewrite Z.mod_small; lia.
  - intros H. symmetry. apply (Z.mod_unique _ _ (-1)); lia.
Qed.

End CompleteMore.

Section ConfigureMore.
Context {St : Type} (process : quiet_process St).






End ConfigureMore.

(** X17.  The reply of [kernel_info_request_impl] holds the three fixed
    entries and one object [language_info] in which the five nested
    assignments have gathered: the name, the version the interpreter was
    given, the same MIME type for [mimetype] and [codemirror_mode], and
    the file extension. *)
Theorem kernel_info_fields m_version :
  let result := kernel_info_request_impl m_version in
  field "protocol_version" result = Some (JString "5.0.0")
  ∧ field "implementation" result = Some (JString "xeus-cling")
  ∧ field "implementation_version" result = Some (JString "0.0.1")
  ∧ ∃ language_info,
      field "language_info" result = Some language_info
      ∧ field "name" language_info = Some (JString "c++")
      ∧ field "version" language_info = Some (JString m_version)
      ∧ field "mimetype" language_info = Some (JString "text/x-c++src")
      ∧ field "codemirror_mode" language_info = Some (JString "text/x-c++src")
      ∧ field "file_extension" language_info = Some (JString ".cpp").
Proof.
  cbv zeta. split_and!; try reflexivity.
  eexists. split_and!; reflexivity.
Qed.

(** ** The other handlers at work *)

Section RunsMore.
Import Demo DemoRequests.

Lemma execute_outcome_run :
  (demo_execute include_code = Some (get_error_reply "ename" "evalue" [], 1, include_trace)
   ∧ processed include_trace ≠ []
   ∧ processed include_trace `prefix_of` split_from_includes demo_parser (c_str include_code)
   ∧ published include_trace = [] ∧ cancelled include_trace ≤ 1
   ∧ last include_trace ≠ Some EvFlushCout)
  ∧ (demo_execute refused_code = Some (get_error_reply "ename" "evalue" [], 1, refused_trace)
     ∧ published refused_trace = []
     ∧ EvFlushCout ∉ refused_trace).
Proof.
  assert (demo_execute include_code
          = Some (get_error_reply "ename" "evalue" [], 1, include_trace)) as Hinclude
    by (by vm_compute).
  assert (demo_execute refused_code
          = Some (get_error_reply "ename" "evalue" [], 1, refused_trace)) as Hrefused
    by (by vm_compute).
  split.
  - split; [exact Hinclude|].
    destruct (execute_outcome demo_engine demo_parser demo_pool 7 include_code 0 kFailure
                (get_error_reply "ename" "evalue" []) 1 include_trace eq_refl Hinclude)
      as [(Hok & _)|(_ & Hne & Hprefix & Hpub & Hcancel & Hlast & _)].
    + apply (f_equal (field "status")) in Hok. vm_compute in Hok. discriminate Hok.
    + split_and!; [exact Hne|exact Hprefix|exact Hpub|exact Hcancel|exact Hlast].
  - split; [exact Hrefused|].
    destruct (execute_outcome demo_engine demo_parser demo_pool 7 refused_code 0 kFailure
                (get_error_reply "ename" "evalue" []) 1 refused_trace eq_refl Hrefused)
      as [(Hok & _)|(_ & _ & _ & Hpub & _ & _ & Hflush)].
    + apply (f_equal (field "status")) in Hok. vm_compute in Hok. discriminate Hok.
    + split; [exact Hpub|]. apply Hflush. intros b e c v.
      repeat (apply not_elem_of_cons; split; [discriminate|]). apply not_elem_of_nil.
Defined.

Lemma execute_no_block_run :
  execute_request_impl demo_engine empty_parser demo_pool 7 "1 + 1" 0 kFailure =
    Some (set_field "status" (JString "ok") JNull, 0,
          [EvSplit (c_str "1 + 1"); EvFlushCout]).
Proof.
  apply (execute_no_block demo_engine empty_parser demo_pool 7 "1 + 1" 0 kFailure).
  - reflexivity.
  - reflexivity.
Defined.

Lemma execute_uninitialised_result_run :
  execute_request_impl demo_engine demo_parser demo_pool 7 fault_code 0 kFailure
  = execute_request_impl demo_engine demo_parser demo_pool 7 fault_code 0 kMoreInputExpected.
Proof.
  apply (execute_uninitialised_result demo_engine demo_parser demo_pool 7 fault_code 0
           kFailure kMoreInputExpected).
  intros st b c c' o. reflexivity.
Defined.

Lemma execute_after_nul_run :
  execute_request_impl demo_engine demo_parser demo_pool 7
    ("1 + 1" +:+ String (ascii_of_nat 0) "; abort()") 0 kFailure
  = execute_request_impl demo_engine demo_parser demo_pool 7 "1 + 1" 0 kFailure.
Proof.
  apply (execute_after_nul demo_engine demo_parser demo_pool 7 "1 + 1" "; abort()" 0 kFailure).
  - reflexivity.
  - reflexivity.
Defined.

Lemma cursor_context_whole_run :
  cursor_context "foo.bar" (-1) = cursor_context "foo.bar" (Z.of_nat (String.length "foo.bar")).
Proof.
  apply (cursor_context_whole "foo.bar" (-1)).
  - left. lia.
  - lia.
  - simpl. lia.
Defined.

Lemma cursor_context_prefix_run :
  cursor_context ("foo.ba" +:+ "r + 1") (Z.of_nat (String.length "foo.ba"))
  = cursor_context "foo.ba" (Z.of_nat (String.length "foo.ba")).
Proof.
  apply (cursor_context_prefix "foo.ba" "r + 1"). simpl. lia.
Defined.

Lemma cursor_context_identifier_run :
  cursor_context (("x = f(" +:+ "foo") +:+ ", 1)")
    (Z.of_nat (String.length ("x = f(" +:+ "foo")))
  = Match "foo".
Proof.
  apply (cursor_context_identifier "x = f(" "foo" ", 1)").
  - discriminate.
  - repeat constructor.
  - reflexivity.
  - simpl. lia.
Defined.

Lemma rewrite_candidate_plain_run :
  rewrite_candidate (chars "size()") = Some (chars "size()").
Proof.
  apply (rewrite_candidate_plain (chars "size()")).
  simpl. repeat (apply not_elem_of_cons; split; [discriminate|]). apply not_elem_of_nil.
Defined.

Lemma complete_reply_run :
  ∃ matches kernel_res,
    complete_request_impl demo_completer "foo" 3 0 = Some (kernel_res, 1)
    ∧ rewrite_candidates ["[#int#]size()"; "foo(<#int x#>)"]%string = Some matches
    ∧ kernel_res !! "status" = Some (XJson (JString "ok"))
    ∧ kernel_res !! "matches" = Some (XJson (JArray matches))
    ∧ kernel_res !! "cursor_start" = Some (XNumber (cursor_start_of 3 (c_str "foo")))
    ∧ kernel_res !! "cursor_end" = Some (XNumber 3)
    ∧ kernel_res !! "metadata" = Some (XJson object)
    ∧ dom kernel_res
      = list_to_set ["matches"; "cursor_start"; "cursor_end"; "metadata"; "status"]%string.
Proof.
  apply (proj2 (complete_reply demo_completer "foo" 3 0) "foo"). reflexivity.
Defined.

Example complete_matches_run :
  rewrite_candidates ["[#int#]size()"; "foo(<#int x#>)"]%string
  = Some ["size()"; "foo(int)"]%string.
Proof. by vm_compute. Qed.

Lemma complete_cursor_start_run :
  ∃ kernel_res st' start,
    complete_request_impl demo_completer "foo" 1 0 = Some (kernel_res, st')
    ∧ kernel_res !! "cursor_start" = Some (XNumber start)
    ∧ start = (2 ^ 64 + 1 - 3)%Z.
Proof.
  destruct (complete_cursor_start demo_completer "foo" 1 0 "foo" eq_refl)
    as (kernel_res & st' & start & Hex & Hstart & _ & _ & Hwrap).
  exists kernel_res, st', start. split; [exact Hex|]. split; [exact Hstart|].
  apply Hwrap. simpl. lia.
Defined.


(** The registration block throws: the workaround is not submitted. *)
Example configure_impl_throws :
  submitted (configure_impl throwing_process 4096 0 kFailure)
    = take 2 (configure_blocks 4096)
  ∧ cf_thrown (configure_impl throwing_process 4096 0 kFailure) = Some OtherException.
Proof. by vm_compute. Qed.

Example configure_blocks_registration :
  configure_blocks 4096 !! 1
  = Some "xeus::register_interpreter(static_cast<xeus::xinterpreter*>((void*)4096));"%string.
Proof. by vm_compute. Qed.

End RunsMore.
